(** * fluent-rest-tester: dependency resolver and cleanup orchestrator

    A shallow embedding of [fluent_rest_tester] (the revision that keeps a
    [last] instance on every resource definition and a [_cleanups] queue):
    [random_string], [field_def], [make_test_object], [find_resource_def],
    [get_api_for_def], [create_resource_from_def],
    [delete_dependent_resources] and [cleanup_orphans].

    Resource definitions are JS objects linked by [parent] and [children];
    here the tree is an inductive type and a definition's identity is its
    index path from the root list.  The mutable [last] slot of every
    definition lives in a store keyed by that identity.  Promises are
    awaited one after the other in the source, so asynchronous methods are
    state-passing functions; recursion through dependencies is bounded by
    fuel. *)

From Stdlib Require Import ZArith String Ascii List Lia Sorted.
From stdpp Require Import base option list gmap strings.

Open Scope string_scope.
Open Scope list_scope.

(** ** JS values that flow through the tester *)

Inductive value :=
| VUndefined
| VNumber (n : Z)
| VString (s : string)
| VBool (b : bool)
| VObject.                      (* the literal {} *)

#[global] Instance value_eq_dec : EqDecision value.
Proof. solve_decision. Defined.

(** ** Errors and outcomes *)

Inductive error :=
| Error (msg : string)          (* throw new Error(msg) *)
| TypeError (what : string).    (* property access on undefined or null *)

Inductive outcome (A : Type) :=
| Ok (a : A)
| Throw (e : error)
| OutOfFuel.
Arguments Ok {A} a.
Arguments Throw {A} e.
Arguments OutOfFuel {A}.

(** ** field_def *)

Definition valid_types : list string :=
  ["sequence"; "number"; "string"; "date"; "timestamp"; "json"; "uuid"; "bool"; "binary"].

Record field_def := {
  f_name : string;
  f_type : string;
  f_max_length : option nat;
  f_ignore : bool;
  f_from : option string;
  f_values : option (list value);
  f_dont_delete : bool
}.

#[global] Instance field_def_eq_dec : EqDecision field_def.
Proof. solve_decision. Defined.

(** The checks of the [field_def] constructor on [options.type]. *)
Definition check_type (ty : option string) : outcome string :=
  match ty with
  | None | Some "" => Throw (Error "A field must have a type.")
  | Some t =>
      if decide (t ∈ valid_types) then Ok t
      else Throw (Error ("Field type " +:+ t +:+ " is not recognized."))
  end.

Definition parent_ref : string := "<parent>".

(** [f.from] as a condition: null and the empty string are falsy. *)
Definition from_of (f : field_def) : option string :=
  match f_from f with
  | Some "" => None
  | o => o
  end.

(** [f.values && f.values.length > 0] *)
Definition values_of (f : field_def) : option (list value) :=
  match f_values f with
  | Some (v :: vs) => Some (v :: vs)
  | _ => None
  end.

(** ** resource_def: the tree built by [create_resource_defs] *)

#[local] Unset Elimination Schemes.
Inductive resource_def := {
  name : string;
  fields : list field_def;      (* Object.keys(def.fields) order *)
  children : list resource_def
}.
#[local] Set Elimination Schemes.

(** Identity of a definition object: its index path from the root list. *)
Definition def_ref := list nat.

Fixpoint def_at (defs : list resource_def) (d : def_ref) : option resource_def :=
  match d with
  | [] => None
  | i :: q =>
      match defs !! i with
      | None => None
      | Some x => match q with [] => Some x | _ => def_at (children x) q end
      end
  end.

(** [def.parent]; undefined for a root. *)
Definition parent_of (d : def_ref) : option def_ref :=
  match d with
  | [] | [_] => None
  | _ => Some (removelast d)
  end.

(** ** The REST client and its answers *)

Record resource_body := { r_id : value; r_message : option string }.
Record response := { statusCode : Z }.
Record result := { response_of : response; resource : option resource_body }.

Definition invocation : Type := string * list value.
Definition handle := list invocation.

Inductive remote_op :=
| Create (instance : gmap string value)
| DeleteById (i : value).

(** One call on a bound client handle.  [target] records which definition
    the call was issued for; the service never sees it. *)
Record remote_call := { target : def_ref; via : handle; op : remote_op }.

Record last_instance := { last_id : value; last_obj : result }.
Record orphan := { o_def : def_ref; o_id : value }.

(** ** What the host provides

    [singular] is [pluralize.singular]; [remote] is the service behind the
    client: what the promise of a call resolves to, given the calls made so
    far ([None] for a falsy result).  The client is assumed to expose every
    member it is asked for.  [entropy] stands for [Math.random] and
    [crypto.randomBytes], [now] for [moment().format()], [uuid_v4] for
    [uuid.v4()]; all are indexed by the number of objects synthesized so
    far and by the field. *)
Record host := {
  singular : string -> string;
  remote : list (handle * remote_op) -> handle -> remote_op -> option result;
  entropy : nat -> string -> nat -> N;
  now : nat -> string;
  uuid_v4 : nat -> string -> string
}.

(** ** Tester state: every [def.last], the calls made, [_cleanups] *)

Record state := {
  lasts : gmap def_ref last_instance;
  calls : list remote_call;
  cleanups : list orphan;
  tick : nat
}.

Definition M (A : Type) : Type := state -> outcome A * state.

Definition ret {A} (a : A) : M A := fun s => (Ok a, s).
Definition throw {A} (e : error) : M A := fun s => (Throw e, s).
Definition out_of_fuel {A} : M A := fun s => (OutOfFuel, s).
Definition bind {A B} (c : M A) (k : A -> M B) : M B :=
  fun s =>
    match c s with
    | (Ok a, s') => k a s'
    | (Throw e, s') => (Throw e, s')
    | (OutOfFuel, s') => (OutOfFuel, s')
    end.
Definition lift {A} (o : outcome A) : M A := fun s => (o, s).

Notation "'do' x <~ c ; k" := (bind c (fun x => k))
  (at level 10, x name, c at level 100, k at level 200).
Notation "'do' '_' <~ c ; k" := (bind c (fun _ => k))
  (at level 10, c at level 100, k at level 200).

Definition get_last (d : def_ref) : M (option last_instance) :=
  fun s => (Ok (lasts s !! d), s).

Definition get_lasts : M (gmap def_ref last_instance) :=
  fun s => (Ok (lasts s), s).

Definition set_last (d : def_ref) (l : option last_instance) : M unit :=
  fun s =>
    (Ok tt,
     {| lasts := match l with Some x => <[d := x]> (lasts s) | None => delete d (lasts s) end;
        calls := calls s; cleanups := cleanups s; tick := tick s |}).

Definition push_cleanup (o : orphan) : M unit :=
  fun s =>
    (Ok tt,
     {| lasts := lasts s; calls := calls s; cleanups := cleanups s ++ [o]; tick := tick s |}).

Definition next_tick : M nat :=
  fun s =>
    (Ok (tick s),
     {| lasts := lasts s; calls := calls s; cleanups := cleanups s; tick := S (tick s) |}).

Definition seen (c : remote_call) : handle * remote_op := (via c, op c).

(** [await api.create(..)] / [await api.delete_by_id(..)] *)
Definition call_remote (h : host) (d : def_ref) (api : handle) (o : remote_op)
  : M (option result) :=
  fun s =>
    (Ok (remote h (seen <$> calls s) api o),
     {| lasts := lasts s;
        calls := calls s ++ [{| target := d; via := api; op := o |}];
        cleanups := cleanups s; tick := tick s |}).

(** ** random_string *)

Definition default_chars : string :=
  "abcdefghijklmnopqrstuwxyzABCDEFGHIJKLMNOPQRSTUWXYZ0123456789".

Fixpoint random_string_loop (chars : string) (bytes : list N) (cursor : N) : string :=
  match bytes with
  | [] => ""
  | b :: rest =>
      let cursor := (cursor + b)%N in
      match String.get (N.to_nat (cursor mod N.of_nat (String.length chars))) chars with
      | Some c => String c (random_string_loop chars rest cursor)
      | None => random_string_loop chars rest cursor   (* join() of undefined *)
      end
  end.

(** [crypto.randomBytes(length)] *)
Definition random_bytes (h : host) (t : nat) (k : string) (len : nat) : list N :=
  (fun i => (entropy h t k (S i) mod 256)%N) <$> seq 0 len.

(** [Math.floor(Math.random() * n)] *)
Definition random_below (h : host) (t : nat) (k : string) (n : N) : N :=
  (entropy h t k 0 mod n)%N.

Definition random_string (h : host) (t : nat) (k : string) (len : nat) (chars : option string)
  : outcome string :=
  let chars := match chars with Some c => if decide (c = "") then default_chars else c
                              | None => default_chars end in
  if Nat.ltb 256 (String.length chars)
  then Throw (Error "Argument 'chars' should not have more than 256 characters, otherwise unpredictability will be broken")
  else Ok (random_string_loop chars (random_bytes h t k len) 0%N).

(** ** make_test_object *)

Record dep := { field : string; from : string }.
Record test_object := { instance : gmap string value; deps : list dep }.

Definition assign (k : string) (v : value) (o : test_object) : test_object :=
  {| instance := <[k := v]> (instance o); deps := deps o |}.

Definition push_dep (x : dep) (o : test_object) : test_object :=
  {| instance := instance o; deps := deps o ++ [x] |}.

(** The [switch (f.type)] of the last branch. *)
Definition synthesize (h : host) (t : nat) (f : field_def) (o : test_object)
  : outcome test_object :=
  if decide (f_type f = "number") then
    Ok (assign (f_name f) (VNumber (Z.of_N (random_below h t (f_name f) 65536 + 0))) o)
  else if decide (f_type f = "string") then
    let len := match f_max_length f with Some 0 | None => 512 | Some n => n end in
    match random_string h t (f_name f) len None with
    | Ok str => Ok (assign (f_name f) (VString str) o)
    | Throw e => Throw e
    | OutOfFuel => OutOfFuel
    end
  else if decide (f_type f = "date") then
    Ok (assign (f_name f) (VString (now h t)) o)
  else if decide (f_type f = "uuid") then
    Ok (assign (f_name f) (VString (uuid_v4 h t (f_name f))) o)
  else if decide (f_type f = "bool") then
    let value := (random_below h t (f_name f) 65536 + 1)%N in
    Ok (assign (f_name f) (VBool (N.eqb (value mod 2) 0)) o)
  else if decide (f_type f = "json") then
    Ok (assign (f_name f) VObject o)
  else if decide (f_type f = "binary") then
    Ok o                        (* XXX: Implement binary data *)
  else Ok o.

(** The body of the [forEach] over [Object.keys(def.fields)]. *)
Definition make_field (h : host) (roots : list resource_def)
    (ls : gmap def_ref last_instance) (t : nat) (def : def_ref)
    (o : test_object) (f : field_def) : outcome test_object :=
  match from_of f with
  | Some src =>
      if decide (src = parent_ref) then
        match parent_of def with
        | None => Throw (TypeError "def.parent is undefined")
        | Some p =>
            match ls !! p with
            | Some l => Ok (assign (f_name f) (last_id l) o)
            | None =>
                match def_at roots p with
                | Some pd => Ok (push_dep {| field := f_name f; from := name pd |} o)
                | None => Throw (TypeError "def.parent is undefined")
                end
            end
        end
      else Ok (push_dep {| field := f_name f; from := src |} o)
  | None =>
      match values_of f with
      | Some vs =>
          let idx := (random_below h t (f_name f) (N.of_nat (length vs)) + 0)%N in
          Ok (assign (f_name f) (default VUndefined (vs !! N.to_nat idx)) o)
      | None => synthesize h t f o
      end
  end.

Fixpoint make_fields (h : host) (roots : list resource_def)
    (ls : gmap def_ref last_instance) (t : nat) (def : def_ref)
    (fs : list field_def) (o : test_object) : outcome test_object :=
  match fs with
  | [] => Ok o
  | f :: rest =>
      match make_field h roots ls t def o f with
      | Ok o' => make_fields h roots ls t def rest o'
      | Throw e => Throw e
      | OutOfFuel => OutOfFuel
      end
  end.

Definition make_test_object (h : host) (roots : list resource_def)
    (ls : gmap def_ref last_instance) (t : nat) (def : def_ref) : outcome test_object :=
  match def_at roots def with
  | None => Throw (TypeError "def is undefined")
  | Some x => make_fields h roots ls t def (fields x) {| instance := ∅; deps := [] |}
  end.

(** ** find_resource_def *)

(** [name.split('/')] *)
Fixpoint split_on (sep : ascii) (s : string) : list string :=
  match s with
  | EmptyString => [EmptyString]
  | String c rest =>
      if decide (c = sep) then EmptyString :: split_on sep rest
      else match split_on sep rest with
           | [] => [String c EmptyString]
           | x :: xs => String c x :: xs
           end
  end.

(** The inner [for] loop: the first index whose definition has that name. *)
Fixpoint first_named (segment : string) (defs : list resource_def) (i : nat)
  : option (nat * resource_def) :=
  match defs with
  | [] => None
  | x :: rest =>
      if decide (name x = segment) then Some (i, x)
      else first_named segment rest (S i)
  end.

(** The [while (segments.length > 0)] loop; [at_] is the position of the
    list [defs] in the tree, [current] starts as null. *)
Fixpoint find_loop (segments : list string) (defs : list resource_def)
    (at_ : def_ref) (current : option def_ref) : option def_ref :=
  match segments with
  | [] => current
  | segment :: rest =>
      match first_named segment defs 0 with
      | Some (i, x) => find_loop rest (children x) (at_ ++ [i]) (Some (at_ ++ [i]))
      | None => find_loop rest defs at_ current
      end
  end.

Definition find_resource_def (roots : list resource_def) (path : string) : option def_ref :=
  find_loop (split_on "/" path) roots [] None.

(** ** get_api_for_def *)

(** First loop: [resources.unshift(current.name); current = current.parent]. *)
Fixpoint chain_up (roots : list resource_def) (n : nat) (current : def_ref)
    (resources : list string) : option (list string) :=
  match n with
  | 0 => None
  | S n' =>
      match def_at roots current with
      | None => None
      | Some x =>
          match parent_of current with
          | None => Some (name x :: resources)
          | Some p => chain_up roots n' p (name x :: resources)
          end
      end
  end.

(** [def.parent.last.id] *)
Definition parent_last_id (ls : gmap def_ref last_instance) (def : def_ref) : outcome value :=
  match parent_of def with
  | None => Throw (TypeError "def.parent is undefined")
  | Some p =>
      match ls !! p with
      | None => Throw (TypeError "def.parent.last is null")
      | Some l => Ok (last_id l)
      end
  end.

(** Second loop: one member invocation per remaining resource name. *)
Fixpoint bind_loop (h : host) (ls : gmap def_ref last_instance) (def : def_ref)
    (resources : list string) (api : handle) : outcome handle :=
  match resources with
  | [] => Ok api
  | resource_name :: rest =>
      if Nat.even (length resources) then
        match parent_last_id ls def with
        | Ok i => bind_loop h ls def rest (api ++ [(singular h resource_name, [i])])
        | Throw e => Throw e
        | OutOfFuel => OutOfFuel
        end
      else bind_loop h ls def rest (api ++ [(resource_name, [])])
  end.

Definition get_api_for_def (h : host) (roots : list resource_def)
    (ls : gmap def_ref last_instance) (def : def_ref) : outcome handle :=
  match chain_up roots (length def) def [] with
  | None => Throw (TypeError "def is undefined")
  | Some resources => bind_loop h ls def resources []
  end.

(** ** create_resource_from_def *)

(** The [for] loop over [obj.deps]; [create] is the recursive call. *)
Fixpoint resolve_deps (create : def_ref -> M (option result))
    (roots : list resource_def) (ds : list dep) (inst : gmap string value)
  : M (gmap string value) :=
  match ds with
  | [] => ret inst
  | x :: rest =>
      match find_resource_def roots (from x) with
      | None => throw (Error ("No resource_def for " +:+ from x +:+ "."))
      | Some dep_def =>
          do res <~ create dep_def;
          match res with
          | Some {| resource := Some body |} =>
              resolve_deps create roots rest (<[field x := r_id body]> inst)
          | _ => throw (Error ("Error creating resource_def " +:+ from x +:+ "."))
          end
      end
  end.

(** The part of [create_resource_from_def] before [if (!def.last)]:
    [make_test_object], then the loop over the dependencies. *)
Definition synthesize_and_resolve (create : def_ref -> M (option result))
    (h : host) (roots : list resource_def) (def : def_ref) : M (gmap string value) :=
  do t <~ next_tick;
  do ls <~ get_lasts;
  do obj <~ lift (make_test_object h roots ls t def);
  resolve_deps create roots (deps obj) (instance obj).

Fixpoint create_resource_from_def (h : host) (roots : list resource_def)
    (fuel : nat) (def : def_ref) : M (option result) :=
  match fuel with
  | 0 => out_of_fuel
  | S n =>
      do inst <~ synthesize_and_resolve (create_resource_from_def h roots n) h roots def;
      do l <~ get_last def;
      match l with
      | None =>
          do ls <~ get_lasts;
          do api <~ lift (get_api_for_def h roots ls def);
          do res <~ call_remote h def api (Create inst);
          match res with
          | Some r =>
              match resource r with
              | Some body =>
                  do _ <~ set_last def (Some {| last_id := r_id body; last_obj := r |});
                  ret res
              | None => throw (TypeError "result.resource is undefined")
              end
          | None => ret res
          end
      | Some l => ret (Some (last_obj l))
      end
  end.

(** ** delete_dependent_resources *)

(** [s.indexOf(pat)] on strings. *)
Definition index_of (s pat : string) : Z :=
  match String.index 0 pat s with
  | Some n => Z.of_nat n
  | None => (-1)%Z
  end.

(** [!def.parent || def.parent.name.indexOf(current_field.from) < 0] *)
Definition outside_parent (roots : list resource_def) (def : def_ref) (src : string) : bool :=
  match parent_of def with
  | None => true
  | Some p =>
      match def_at roots p with
      | Some pd => (index_of (name pd) src <? 0)%Z
      | None => true
      end
  end.

Fixpoint for_each {A} (body : A -> M unit) (l : list A) : M unit :=
  match l with
  | [] => ret tt
  | x :: rest => do _ <~ body x; for_each body rest
  end.

(** The body of the [for] loop over the keys, [recurse] being the
    recursive call. *)
Definition delete_field (recurse : def_ref -> M unit) (h : host)
    (roots : list resource_def) (def : def_ref) (current_field : field_def) : M unit :=
  match from_of current_field with
  | None => ret tt
  | Some src =>
      if decide (src = parent_ref) then ret tt
      else
        match find_resource_def roots src with
        | None => throw (Error ("No resource_def for " +:+ src +:+ "."))
        | Some temp_def =>
            do l <~ get_last temp_def;
            match l with
            | None => ret tt
            | Some l0 =>
                if negb (f_dont_delete current_field) && outside_parent roots def src then
                  do _ <~ recurse temp_def;
                  do ls <~ get_lasts;
                  do api <~ lift (get_api_for_def h roots ls temp_def);
                  do l1 <~ get_last temp_def;
                  match l1 with
                  | None => throw (TypeError "temp_def.last is null")
                  | Some l1 =>
                      do res <~ call_remote h temp_def api (DeleteById (last_id l1));
                      match res with
                      | None => throw (TypeError "result is undefined")
                      | Some r =>
                          do _ <~ (if decide (statusCode (response_of r) = 204%Z) then ret tt
                                   else push_cleanup {| o_def := temp_def; o_id := last_id l1 |});
                          set_last temp_def None
                      end
                  end
                else push_cleanup {| o_def := temp_def; o_id := last_id l0 |}
            end
        end
  end.

Fixpoint delete_dependent_resources (h : host) (roots : list resource_def)
    (fuel : nat) (def : def_ref) : M unit :=
  match fuel with
  | 0 => out_of_fuel
  | S n =>
      do l <~ get_last def;
      match l with
      | None => ret tt
      | Some _ =>
          match def_at roots def with
          | None => throw (TypeError "def.fields is undefined")
          | Some x =>
              for_each (delete_field (delete_dependent_resources h roots n) h roots def) (fields x)
          end
      end
  end.

(** ** cleanup_orphans *)

Definition shift_cleanup : M (option orphan) :=
  fun s =>
    match cleanups s with
    | [] => (Ok None, s)
    | current :: rest =>
        (Ok (Some current),
         {| lasts := lasts s; calls := calls s; cleanups := rest; tick := tick s |})
    end.

(** The [while (this._cleanups.length > 0)] loop; nothing is pushed while
    it runs, so the length of the queue bounds the iterations. *)
Fixpoint drain (h : host) (roots : list resource_def) (n : nat) (deleted : list value)
  : M unit :=
  match n with
  | 0 => fun s => match cleanups s with [] => (Ok tt, s) | _ => (OutOfFuel, s) end
  | S n' =>
      do c <~ shift_cleanup;
      match c with
      | None => ret tt
      | Some current =>
          if decide (o_id current ∈ deleted) then drain h roots n' deleted
          else
            do ls <~ get_lasts;
            do api <~ lift (get_api_for_def h roots ls (o_def current));
            do _ <~ call_remote h (o_def current) api (DeleteById (o_id current));
            drain h roots n' (deleted ++ [o_id current])
      end
  end.

Definition cleanup_orphans (h : host) (roots : list resource_def) : M unit :=
  fun s => drain h roots (length (cleanups s)) [] s.

(** ** The configuration as parsed from YAML, and create_resource_defs *)

(** The options object of one field; a missing key is [None]. *)
Record raw_options := {
  o_type : option string;
  o_max_length : option nat;
  o_ignore : option bool;
  o_from : option string;
  o_values : option (list value);
  o_dont_delete : option bool
}.

(** What sits under the first key of a field object. *)
Inductive raw_entry :=
| ENull                         (* null or undefined *)
| EScalar                       (* a number, string or boolean *)
| EOptions (o : raw_options).

(** One element of [v.fields]. *)
Inductive raw_field :=
| FScalar                       (* typeof f !== 'object' *)
| FNull                         (* typeof null === 'object' *)
| FObject (entries : list (string * raw_entry)).

(** [Object.keys] lists the keys that are array indices first, in
    ascending numeric order, and then the other keys in the order in
    which the properties were created.  An array index is the decimal
    numeral, with no sign and no leading zero, of a number below
    2^32 - 1.  An object of the configuration is the list of its
    properties in the order of creation, which for a parsed document is
    the order in which they are written. *)
Definition digit (c : ascii) : option N :=
  let n := N_of_ascii c in
  if ((48 <=? n) && (n <=? 57))%N then Some (n - 48)%N else None.

Fixpoint numeral (s : string) (acc : N) : option N :=
  match s with
  | EmptyString => Some acc
  | String c rest =>
      match digit c with
      | Some d => numeral rest (acc * 10 + d)%N
      | None => None
      end
  end.

Definition array_index (k : string) : option N :=
  match k with
  | EmptyString => None
  | String c rest =>
      if decide (c = "0"%char ∧ rest ≠ EmptyString) then None
      else match numeral k 0 with
           | Some n => if (n <? 4294967295)%N then Some n else None
           | None => None
           end
  end.

(** [x], of index [i], among properties already in ascending order. *)
Fixpoint place {A} (i : N) (x : A) (l : list (N * A)) : list (N * A) :=
  match l with
  | [] => [(i, x)]
  | (j, y) :: rest =>
      if (i <=? j)%N then (i, x) :: (j, y) :: rest else (j, y) :: place i x rest
  end.

(** The properties whose key is an array index, in ascending order. *)
Fixpoint numbered {A} (key : A → string) (l : list A) : list (N * A) :=
  match l with
  | [] => []
  | x :: rest =>
      match array_index (key x) with
      | Some i => place i x (numbered key rest)
      | None => numbered key rest
      end
  end.

(** The properties [l] of an object in the order of [Object.keys]. *)
Definition object_keys {A} (key : A → string) (l : list A) : list A :=
  (snd <$> numbered key l) ++ filter (λ x, array_index (key x) = None) l.

(** The constructor of [field_def]; [field] holds the properties of the
    field object as [Object.keys] lists them. *)
Definition new_field_def (field : list (string * raw_entry)) : outcome field_def :=
  match field with
  | [] => Throw (TypeError "options is undefined")
  | (_name, ENull) :: _ => Throw (TypeError "options is null")
  | (_name, EScalar) :: _ => Throw (Error "A field must have a type.")
  | (_name, EOptions options) :: _ =>
      match check_type (o_type options) with
      | Ok _type =>
          Ok {| f_name := _name;
                f_type := _type;
                f_max_length := match o_max_length options with
                                | Some 0 | None => None
                                | Some n => Some n
                                end;
                f_ignore := default false (o_ignore options);
                f_from := match o_from options with
                          | Some "" | None => None
                          | Some src => Some src
                          end;
                f_values := o_values options;
                f_dont_delete := default false (o_dont_delete options) |}
      | Throw e => Throw e
      | OutOfFuel => OutOfFuel
      end
  end.

(** [resource_def.fields[field.name] = field], the properties of
    [fields] in the order of creation: an existing key keeps its place
    and takes the new value. *)
Fixpoint set_field (field : field_def) (fs : list field_def) : list field_def :=
  match fs with
  | [] => [field]
  | g :: rest =>
      if decide (f_name g = f_name field) then field :: rest
      else g :: set_field field rest
  end.

(** The [forEach] over [v.fields]. *)
Fixpoint add_fields (raw : list raw_field) (fs : list field_def) : outcome (list field_def) :=
  match raw with
  | [] => Ok fs
  | FScalar :: _ => Throw (Error "Fields must be objects.")
  | FNull :: _ => Throw (TypeError "Cannot convert undefined or null to object")
  | FObject entries :: rest =>
      match new_field_def (object_keys fst entries) with
      | Ok field => add_fields rest (set_field field fs)
      | Throw e => Throw e
      | OutOfFuel => OutOfFuel
      end
  end.

Record verbs_def := { v_get : bool; v_post : bool; v_put : bool; v_patch : bool; v_delete : bool }.

(** One resource of the configuration.  [r_enabled] is [Some] when the
    key is present; [r_uri] is the template before parsing; [r_timeout]
    is the number given. *)
#[local] Unset Elimination Schemes.
Inductive raw_resource := {
  r_enabled : option value;
  r_uri : option string;
  r_pre_existing_data : value;
  r_timeout : option Z;
  r_verbs : option (list string);
  r_fields : option (list raw_field);
  r_children : list (string * option raw_resource)
}.

(** A resource definition with everything [create_resource_defs] puts in it. *)
Inductive built_def := {
  b_name : string;
  b_fields : list field_def;
  b_enabled : value;
  b_id_name : string;
  b_verbs : verbs_def;
  b_uri : option string;
  b_pre_existing_data : value;
  b_timeout : option Z;
  b_children : list built_def
}.
#[local] Set Elimination Schemes.

Definition all_verbs : verbs_def :=
  {| v_get := true; v_post := true; v_put := true; v_patch := true; v_delete := true |}.

Definition listed (y : string) (l : list string) : bool := bool_decide (y ∈ l).

(** The body of the [forEach] of [create_resource_defs] for one key
    after the other: nothing is built for a null value, and an exception
    ends the loop. *)
Fixpoint push_each (built : list (string * option (outcome built_def)))
  : outcome (list built_def) :=
  match built with
  | [] => Ok []
  | (_, None) :: rest => push_each rest
  | (_, Some (Ok d)) :: rest =>
      match push_each rest with
      | Ok ds => Ok (d :: ds)
      | Throw e => Throw e
      | OutOfFuel => OutOfFuel
      end
  | (_, Some (Throw e)) :: _ => Throw e
  | (_, Some OutOfFuel) :: _ => OutOfFuel
  end.

(** [create_resource_defs(resources, parent)], for one key [x] with value
    [v]; the [parent] link is the position in the result, and [b_fields]
    lists the fields as [Object.keys(def.fields)] does.  Building a
    definition has no effect on anything else, so what the children build
    is written where they stand in [v.children] and taken up in the order
    of [Object.keys]. *)
Fixpoint create_resource_def (h : host) (x : string) (v : raw_resource) : outcome built_def :=
  match (match r_fields v with Some raw => add_fields raw [] | None => Ok [] end) with
  | Ok fs =>
      match push_each
              (object_keys fst
                 ((fix each (resources : list (string * option raw_resource))
                     : list (string * option (outcome built_def)) :=
                     match resources with
                     | [] => []
                     | (y, None) :: rest => (y, None) :: each rest
                     | (y, Some w) :: rest =>
                         (y, Some (create_resource_def h y w)) :: each rest
                     end) (r_children v))) with
      | Ok cs =>
          Ok {| b_name := x;
                b_fields := object_keys f_name fs;
                b_enabled := default (VBool true) (r_enabled v);
                b_id_name := singular h x +:+ "_id";
                b_verbs := match r_verbs v with
                           | Some l =>
                               {| v_get := listed "get" l; v_post := listed "post" l;
                                  v_put := listed "put" l; v_patch := listed "patch" l;
                                  v_delete := listed "delete" l |}
                           | None => all_verbs
                           end;
                b_uri := match r_uri v with Some "" | None => None | Some u => Some u end;
                b_pre_existing_data := r_pre_existing_data v;
                b_timeout := match r_timeout v with
                             | Some 0%Z | None => None
                             | Some n => Some n
                             end;
                b_children := cs |}
      | Throw e => Throw e
      | OutOfFuel => OutOfFuel
      end
  | Throw e => Throw e
  | OutOfFuel => OutOfFuel
  end.

(** What every property of [resources] builds, where it stands. *)
Definition build_each (h : host) (resources : list (string * option raw_resource))
  : list (string * option (outcome built_def)) :=
  (λ e : string * option raw_resource, (e.1, create_resource_def h e.1 <$> e.2)) <$> resources.

Definition create_resource_defs (h : host) (resources : list (string * option raw_resource))
  : outcome (list built_def) :=
  push_each (object_keys fst (build_each h resources)).

(** The part of a built definition that the resolver and the cleanup read. *)
Fixpoint core (d : built_def) : resource_def :=
  {| name := b_name d; fields := b_fields d; children := map core (b_children d) |}.

(** ** The earlier revision: dependencies kept in a [deps] object

    In the first revision of the file the instances created for the
    dependencies of a resource are kept in an object [deps], keyed by
    resource name, each entry holding the created [items] and an [index]
    into them; definitions have no [parent] and no [last]. *)

Module Earlier.

Record item := { item_id : value; item_func : string }.
Record dependent := { items : list item; index : nat }.

(** The [deps] object, its keys in insertion order. *)
Definition deps_object := list (string * dependent).

Fixpoint deps_get (k : string) (deps : deps_object) : option dependent :=
  match deps with
  | [] => None
  | (k', d) :: rest => if decide (k' = k) then Some d else deps_get k rest
  end.

Fixpoint deps_set (k : string) (d : dependent) (deps : deps_object) : deps_object :=
  match deps with
  | [] => [(k, d)]
  | (k', d') :: rest =>
      if decide (k' = k) then (k, d) :: rest else (k', d') :: deps_set k d rest
  end.

(** The body of the [forEach] of [make_test_object(def, deps)].  The
    switch on [f.type] is the later one without its empty [binary] case.
    The text of the first error ends with the JSON of [deps], left out. *)
Definition make_field (h : host) (t : nat) (acc : gmap string value * deps_object)
    (f : field_def) : outcome (gmap string value * deps_object) :=
  let '(o, deps) := acc in
  match from_of f with
  | Some src =>
      if decide (src = parent_ref) then Ok (o, deps)
      else
        match deps_get src deps with
        | None =>
            Throw (Error ("Dependent resource missing for " +:+ f_name f +:+ ":" +:+ src))
        | Some dependent =>
            match items dependent !! index dependent with
            | None => Throw (TypeError "dependent.items[dependent.index] is undefined")
            | Some it =>
                let next := S (index dependent) in
                let next := if Nat.leb (length (items dependent)) next then 0 else next in
                Ok (<[f_name f := item_id it]> o,
                    deps_set src {| items := items dependent; index := next |} deps)
            end
        end
  | None =>
      match values_of f with
      | Some vs =>
          let idx := (random_below h t (f_name f) (N.of_nat (length vs)) + 0)%N in
          Ok (<[f_name f := default VUndefined (vs !! N.to_nat idx)]> o, deps)
      | None =>
          match synthesize h t f {| instance := o; deps := [] |} with
          | Ok o' => Ok (instance o', deps)
          | Throw e => Throw e
          | OutOfFuel => OutOfFuel
          end
      end
  end.

Fixpoint make_fields (h : host) (t : nat) (fs : list field_def)
    (acc : gmap string value * deps_object) : outcome (gmap string value * deps_object) :=
  match fs with
  | [] => Ok acc
  | f :: rest =>
      match make_field h t acc f with
      | Ok acc' => make_fields h t rest acc'
      | Throw e => Throw e
      | OutOfFuel => OutOfFuel
      end
  end.

Definition make_test_object (h : host) (t : nat) (def : resource_def) (deps : deps_object)
  : outcome (gmap string value * deps_object) :=
  make_fields h t (fields def) (∅, deps).

(** One element of the [resources] array of [get_dependent_resources]:
    the client proxy (known by its name), the root definition found, and
    [id_name], always ['id'] since a [field_def] has no [id]. *)
Record entry := { e_func : string; e_def : nat; e_target : resource_def; e_id_name : string }.

(** The [forEach] of [get_dependent_resources] over the keys of
    [def.fields]; [recurse] is the recursive call and [proxies] tells
    which members [this._rest_api] has. *)
Fixpoint collect (recurse : resource_def → list entry → outcome (list entry))
    (roots : list resource_def) (proxies : string → bool)
    (fs : list field_def) (resources : list entry) : outcome (list entry) :=
  match fs with
  | [] => Ok resources
  | f :: rest =>
      match from_of f with
      | None => collect recurse roots proxies rest resources
      | Some src =>
          if decide (src = parent_ref) then collect recurse roots proxies rest resources
          else if negb (proxies src) then
            Throw (Error ("No client proxy for " +:+ src +:+ "."))
          else
            match first_named src roots 0 with
            | None => Throw (Error ("No resource_def for " +:+ src +:+ "."))
            | Some (i, target_def) =>
                match recurse target_def
                        ({| e_func := src; e_def := i; e_target := target_def;
                            e_id_name := "id" |} :: resources) with
                | Ok resources' => collect recurse roots proxies rest resources'
                | Throw e => Throw e
                | OutOfFuel => OutOfFuel
                end
            end
      end
  end.

(** [get_dependent_resources(def, resources)] *)
Fixpoint get_dependent_resources (roots : list resource_def) (proxies : string → bool)
    (fuel : nat) (def : resource_def) (resources : list entry) : outcome (list entry) :=
  match fuel with
  | 0 => OutOfFuel
  | S n =>
      collect (get_dependent_resources roots proxies n) roots proxies (fields def) resources
  end.

(** What the earlier tester keeps between its steps. *)
Record run := { r_deps : deps_object; r_calls : list remote_call; r_tick : nat }.




(** [items = items.concat(deps[x].items)] over the keys. *)
Definition all_items (deps : deps_object) : list item :=
  concat ((λ kd, items kd.2) <$> deps).

(** The delete call for one recorded instance; it is tied to no
    definition, only to the proxy it was created through. *)
Definition delete_item_call (x : item) : remote_call :=
  {| target := []; via := [(item_func x, [])]; op := DeleteById (item_id x) |}.

(** [delete_item(idx)]: one call after the other; the answers of the
    service are not looked at. *)
Fixpoint delete_items (l : list item) (calls : list remote_call) : list remote_call :=
  match l with
  | [] => calls
  | x :: rest => delete_items rest (calls ++ [delete_item_call x])
  end.

(** [delete_dependent_resources(deps, done)]; [None] is a falsy [deps]. *)
Definition delete_dependent_resources (deps : option deps_object)
    (calls : list remote_call) : list remote_call :=
  match deps with
  | None => calls
  | Some deps => delete_items (all_items deps) calls
  end.



(** The entries [l] provide for every field of [def] that names another
    resource. *)
Definition covers (fs : list field_def) (l : list entry) : Prop :=
  ∀ g src, g ∈ fs → from_of g = Some src → src ≠ parent_ref →
           ∃ e, e ∈ l ∧ e_func e = src.

(** Every entry comes after the entries for what its own definition
    depends on. *)
Definition dependencies_first (l : list entry) : Prop :=
  ∀ i e, l !! i = Some e → covers (fields (e_target e)) (take i l).

(** An entry stands for a root definition found by name, with a client
    proxy of that name. *)
Definition sound_entry (roots : list resource_def) (proxies : string → bool) (e : entry)
  : Prop :=
  proxies (e_func e) = true ∧
  first_named (e_func e) roots 0 = Some (e_def e, e_target e) ∧
  e_id_name e = "id".


End Earlier.

(** ** es6_mocha.js: which files are compiled *)

Module Es6Mocha.

(** A loaded [package.json], as far as it is looked at. *)
Record package := { es6 : bool }.

(** What node provides: [path.dirname], [path.join], [path.sep],
    [fs.existsSync] and [require] of a [package.json]. *)
Record node := {
  dirname : string → string;
  join : string → string → string;
  sep : ascii;
  exists_sync : string → bool;
  require : string → package
}.

(** [s.lastIndexOf(c)] for a one-character [c]; [None] is -1. *)
Fixpoint last_index_of (c : ascii) (s : string) : option nat :=
  match s with
  | EmptyString => None
  | String a rest =>
      match last_index_of c rest with
      | Some n => Some (S n)
      | None => if decide (a = c) then Some 0 else None
      end
  end.

(** The [while (true)] loop of [find_parent_package]; the result is
    [Some] of the package required, or [None] for null. *)
Fixpoint climb (nd : node) (fuel : nat) (current : string) : outcome (option package) :=
  match fuel with
  | 0 => OutOfFuel
  | S n =>
      let package_json := join nd current "package.json" in
      if exists_sync nd package_json then Ok (Some (require nd package_json))
      else
        match last_index_of (sep nd) current with
        | None => Ok None
        | Some last_slash => climb nd n (String.substring 0 last_slash current)
        end
  end.

Definition find_parent_package (nd : node) (filename : string) : outcome (option package) :=
  climb nd (S (String.length (dirname nd filename))) (dirname nd filename).

(** The function given to [traceur.require.makeDefault]: is the file to
    be compiled?  [p && p.es6] is read as a condition. *)
Definition compiled (nd : node) (filename : string) : outcome bool :=
  if (-1 <? index_of filename "package.json")%Z then Ok false
  else if (index_of filename "node_modules" =? -1)%Z then Ok true
  else
    match find_parent_package nd filename with
    | Ok (Some p) => Ok (es6 p)
    | Ok None => Ok false
    | Throw e => Throw e
    | OutOfFuel => OutOfFuel
    end.

End Es6Mocha.

(** ** Vocabulary of the statements *)

Definition succeeds {A} (o : outcome A) : Prop :=
  match o with Ok _ => True | _ => False end.

#[global] Instance succeeds_dec {A} (o : outcome A) : Decision (succeeds o).
Proof. destruct o; simpl; apply _. Defined.

#[global] Instance remote_op_eq_dec : EqDecision remote_op.
Proof. solve_decision. Defined.


(** Entries that survive the dedup by id, oldest first. *)
Fixpoint pending (q : list orphan) (deleted : list value) : list orphan :=
  match q with
  | [] => []
  | c :: rest =>
      if decide (o_id c ∈ deleted) then pending rest deleted
      else c :: pending rest (deleted ++ [o_id c])
  end.

(** The delete call issued for a queue entry. *)
Definition delete_call (h : host) (roots : list resource_def)
    (ls : gmap def_ref last_instance) (o : orphan) : remote_call :=
  {| target := o_def o;
     via := match get_api_for_def h roots ls (o_def o) with Ok api => api | _ => [] end;
     op := DeleteById (o_id o) |}.

Definition is_create (o : remote_op) : Prop :=
  match o with Create _ => True | DeleteById _ => False end.

(** What creation may do to the tester state from [s]: instances are only
    added, the queue is left alone, and every call issued is a create
    call for a definition that had no live instance in [s]. *)
Definition grows_from {A} (c : M A) (s : state) : Prop :=
  ∀ out s', c s = (out, s') →
    lasts s ⊆ lasts s' ∧ cleanups s' = cleanups s ∧
    ∃ extra, calls s' = calls s ++ extra ∧
             Forall (λ c, lasts s !! target c = None ∧ is_create (op c)) extra.

Definition grows {A} (c : M A) : Prop := ∀ s, grows_from c s.

Definition with_tick (s : state) (t : nat) : state :=
  {| lasts := lasts s; calls := calls s; cleanups := cleanups s; tick := t |}.


(** From any state that still holds the instances of [s1], the call
    answers [r] again and changes nothing but the synthesis counter. *)
Definition replays (c : M (option result)) (r : result) (s1 : state) : Prop :=
  ∀ s2, lasts s1 ⊆ lasts s2 → ∃ t, c s2 = (Ok (Some r), with_tick s2 t).

Definition dep_settled (create : def_ref → M (option result))
    (roots : list resource_def) (s1 : state) (x : dep) : Prop :=
  ∃ dd r body, find_resource_def roots (from x) = Some dd ∧
               resource r = Some body ∧ replays (create dd) r s1.

(** [chars || default] of [random_string]. *)
Definition alphabet_of (chars : option string) : string :=
  match chars with
  | Some c => if decide (c = "") then default_chars else c
  | None => default_chars
  end.

(** [f.max_length || 512] *)
Definition length_of (f : field_def) : nat :=
  match f_max_length f with Some 0 | None => 512 | Some n => n end.

(** The sibling list found at a position of the tree: the roots at the
    top, the children of the definition elsewhere. *)
Definition level (roots : list resource_def) (at_ : def_ref) : option (list resource_def) :=
  match at_ with
  | [] => Some roots
  | _ => children <$> def_at roots at_
  end.

(** The names from the root down to a definition. *)
Fixpoint names_along (defs : list resource_def) (d : def_ref) : option (list string) :=
  match d with
  | [] => Some []
  | i :: q =>
      match defs !! i with
      | None => None
      | Some x => cons (name x) <$> names_along (children x) q
      end
  end.

(** Names joined by ["/"], the inverse of [split_on "/"]. *)
Fixpoint path_of (names : list string) : string :=
  match names with
  | [] => ""
  | [n] => n
  | n :: rest => n +:+ "/" +:+ path_of rest
  end.

Definition has_slash (s : string) : Prop := "/"%char ∈ list_ascii_of_string s.

#[global] Instance has_slash_dec s : Decision (has_slash s).
Proof. unfold has_slash. apply _. Defined.

(** Along [d], every definition is the first of its siblings to bear its
    name, and no name contains a slash. *)
Fixpoint first_along (defs : list resource_def) (d : def_ref) : Prop :=
  match d with
  | [] => True
  | i :: q =>
      match defs !! i with
      | None => False
      | Some x =>
          first_named (name x) defs 0 = Some (i, x) ∧ ¬ has_slash (name x) ∧
          first_along (children x) q
      end
  end.

(** A run from [s] that ends well with a result satisfying [good] has
    called the service once for each definition that gained an instance,
    and for no other. *)
Definition creates_exactly {A} (c : M A) (good : A → Prop) (s : state) : Prop :=
  ∀ a s', c s = (Ok a, s') → good a →
    ∃ extra, calls s' = calls s ++ extra ∧ NoDup (target <$> extra) ∧
             ∀ d, d ∈ (target <$> extra) ↔ lasts s !! d = None ∧ is_Some (lasts s' !! d).

(** What cleanup may do to the tester state from [s]: instances are only
    removed, every call is a delete call carrying the id of an instance
    that was live in [s], and every pair queued carries such an id. *)
Definition only_deletes {A} (c : M A) (s : state) : Prop :=
  ∀ out s', c s = (out, s') →
    lasts s' ⊆ lasts s ∧ tick s' = tick s ∧
    (∃ q, cleanups s' = cleanups s ++ q ∧
          Forall (λ o, ∃ l, lasts s !! o_def o = Some l ∧ o_id o = last_id l) q) ∧
    ∃ extra, calls s' = calls s ++ extra ∧
             Forall (λ c, ∃ l, lasts s !! target c = Some l ∧
                               op c = DeleteById (last_id l)) extra.

(** A run from [s] that ends well has called the service once for each
    definition that lost its instance, and for no other. *)
Definition deletes_exactly {A} (c : M A) (s : state) : Prop :=
  ∀ a s', c s = (Ok a, s') →
    ∃ extra, calls s' = calls s ++ extra ∧ NoDup (target <$> extra) ∧
             ∀ d, d ∈ (target <$> extra) ↔ is_Some (lasts s !! d) ∧ lasts s' !! d = None.

(** The keys [ks] are array indices, in ascending order. *)
Definition ascending (ks : list string) : Prop :=
  ∃ indices, array_index <$> ks = Some <$> indices ∧ StronglySorted N.le indices.

(** A field as the constructor leaves it: a valid type, and no empty
    [from] or zero [max_length] where null is meant. *)
Definition normal_field (f : field_def) : Prop :=
  f_type f ∈ valid_types ∧ f_from f ≠ Some "" ∧ f_max_length f ≠ Some 0.

(** Every definition of a built tree has normal fields with pairwise
    distinct names. *)
Fixpoint tidy (d : built_def) : Prop :=
  NoDup (f_name <$> b_fields d) ∧ Forall normal_field (b_fields d) ∧
  (fix all (l : list built_def) : Prop :=
     match l with
     | [] => True
     | c :: rest => tidy c ∧ all rest
     end) (b_children d).

(** ** A small configuration used by the closed examples *)

Module Fixture.

(** A singular form good enough for the names below. *)
Definition drop_s (s : string) : string :=
  match String.length s with
  | 0 => s
  | S n => if decide (String.get n s = Some "s"%char) then String.substring 0 n s else s
  end.

Definition plain (n t : string) : field_def :=
  {| f_name := n; f_type := t; f_max_length := None; f_ignore := false;
     f_from := None; f_values := None; f_dont_delete := false |}.

Definition ref (n src : string) (keep : bool) : field_def :=
  {| f_name := n; f_type := "number"; f_max_length := None; f_ignore := false;
     f_from := Some src; f_values := None; f_dont_delete := keep |}.

Definition created (i : Z) (msg : option string) : result :=
  {| response_of := {| statusCode := 201 |};
     resource := Some {| r_id := VNumber i; r_message := msg |} |}.

(** The service numbers what it creates by the count of calls so far;
    [msg] is put in every body it returns, deletes answer [del]. *)
Definition service (msg : option string) (del : Z)
    (hist : list (handle * remote_op)) (api : handle) (o : remote_op) : option result :=
  match o with
  | Create _ => Some (created (Z.of_nat (length hist) + 1) msg)
  | DeleteById _ => Some {| response_of := {| statusCode := del |}; resource := None |}
  end.

Definition host_of (msg : option string) (del : Z) : host :=
  {| singular := drop_s;
     remote := service msg del;
     entropy := fun t k i => N.of_nat (t + i + String.length k);
     now := fun _ => "2015-06-01T12:00:00+00:00";
     uuid_v4 := fun _ _ => "110ec58a-a0f2-4ac4-8393-c866d813b8d1" |}.

Definition empty_state : state :=
  {| lasts := ∅; calls := []; cleanups := []; tick := 0 |}.

Definition live (i : Z) : last_instance :=
  {| last_id := VNumber i; last_obj := created i None |}.

(** Two roots: [as] has a field filled from [bs]. *)
Definition def_a : resource_def :=
  {| name := "as";
     fields := [ref "b_id" "bs" false; plain "when" "date"; plain "stamp" "timestamp";
                plain "seq" "sequence"; plain "blob" "binary"; plain "flag" "bool"];
     children := [] |}.

Definition def_b : resource_def :=
  {| name := "bs"; fields := [plain "title" "string"]; children := [] |}.

Definition roots_ab : list resource_def := [def_a; def_b].

(** Four levels of nesting; the innermost refers to the outermost. *)
Definition roots_deep : list resource_def :=
  [ {| name := "as"; fields := []; children :=
      [ {| name := "bs"; fields := []; children :=
          [ {| name := "cs"; fields := [ref "a_id" "as" false]; children :=
              [ {| name := "ds"; fields := []; children := [] |} ] |} ] |} ] |} ].

(** [cs] under [bs] names its own parent in a [from]. *)
Definition roots_family : list resource_def :=
  [ {| name := "bs"; fields := []; children :=
      [ {| name := "cs"; fields := [ref "b_id" "bs" false]; children := [] |} ] |} ].

Definition deep_lasts : gmap def_ref last_instance :=
  <[ [0] := live 1 ]> (<[ [0; 0] := live 2 ]> (<[ [0; 0; 0] := live 3 ]> ∅)).

(** [as] is live, [bs] is not. *)
Definition only_a_live : state :=
  {| lasts := {[ [0] := live 9 ]}; calls := []; cleanups := []; tick := 0 |}.

(** The state after a first resolved creation of [as]. *)
Definition after_first_create : state :=
  (create_resource_from_def (host_of None 204) roots_ab 2 [0] empty_state).2.

(** Synthesis and resolution for [as] once more, in that state. *)
Definition phase_a_again : outcome (gmap string value) * state :=
  synthesize_and_resolve (create_resource_from_def (host_of None 204) roots_ab 1)
    (host_of None 204) roots_ab [0] after_first_create.

Definition inst_a_again : gmap string value :=
  match phase_a_again.1 with Ok i => i | _ => ∅ end.



End Fixture.

(** ** A second configuration: a root with one nested resource *)

Module Shop.

Definition shop_id : field_def :=
  {| f_name := "shop_id"; f_type := "number"; f_max_length := None; f_ignore := false;
     f_from := Some parent_ref; f_values := None; f_dont_delete := false |}.

Definition price : field_def :=
  {| f_name := "price"; f_type := "number"; f_max_length := None; f_ignore := false;
     f_from := None; f_values := None; f_dont_delete := false |}.

Definition kind : field_def :=
  {| f_name := "kind"; f_type := "string"; f_max_length := None; f_ignore := false;
     f_from := None; f_values := Some [VString "new"; VString "used"];
     f_dont_delete := false |}.

Definition label : field_def :=
  {| f_name := "label"; f_type := "string"; f_max_length := Some 8; f_ignore := false;
     f_from := None; f_values := None; f_dont_delete := false |}.

Definition owner_id : field_def :=
  {| f_name := "owner_id"; f_type := "number"; f_max_length := None; f_ignore := false;
     f_from := Some "owners"; f_values := None; f_dont_delete := true |}.

Definition item_fields : list field_def := [shop_id; price; kind; label; owner_id].

Definition items : resource_def :=
  {| name := "items"; fields := item_fields; children := [] |}.

Definition shops : resource_def :=
  {| name := "shops"; fields := []; children := [items] |}.

Definition owners : resource_def :=
  {| name := "owners"; fields := []; children := [] |}.

Definition roots : list resource_def := [shops; owners].

Definition host : host := Fixture.host_of None 204.

(** The shop is live, with id 5. *)
Definition shop_live : gmap def_ref last_instance := {[ [0] := Fixture.live 5 ]}.

End Shop.

(** ** A third configuration: orders that refer to a shop and to one of its items *)

Module Orders.

(** [items] lives under [shops]; an order keeps the item and the owners
    it refers to ([dont_delete]) and gives up the shop. *)
Definition items : resource_def :=
  {| name := "items"; fields := [Shop.shop_id; Shop.price]; children := [] |}.

Definition shops : resource_def :=
  {| name := "shops"; fields := []; children := [items] |}.

Definition owners : resource_def :=
  {| name := "owners"; fields := []; children := [] |}.

Definition orders : resource_def :=
  {| name := "orders";
     fields := [ Fixture.ref "item_id" "shops/items" true;
                 Fixture.ref "shop_id" "shops" false;
                 Fixture.ref "owner_id" "owners" true;
                 Fixture.ref "payer_id" "owners" true ];
     children := [] |}.

Definition roots : list resource_def := [shops; owners; orders].

(** An order has been created, and with it what it depends on; the
    service answers every delete with [del]. *)
Definition created (del : Z) : state :=
  (create_resource_from_def (Fixture.host_of None del) roots 3 [2] Fixture.empty_state).2.



End Orders.

(** ** A configuration as written in YAML *)

Module Config.

Definition opts (ty : string) : raw_options :=
  {| o_type := Some ty; o_max_length := None; o_ignore := None; o_from := None;
     o_values := None; o_dont_delete := None |}.

Definition leaf (fs : list raw_field) : raw_resource :=
  {| r_enabled := None; r_uri := None; r_pre_existing_data := VUndefined;
     r_timeout := None; r_verbs := None; r_fields := Some fs; r_children := [] |}.

(** [title] is declared twice; [ghosts] is null. *)
Definition resources : list (string * option raw_resource) :=
  [ ("books",
     Some {| r_enabled := None; r_uri := Some "/books{/book_id}";
             r_pre_existing_data := VBool false; r_timeout := Some 0%Z;
             r_verbs := Some ["get"; "post"];
             r_fields := Some [ FObject [("title", EOptions (opts "string"))];
                                FObject [("pages", EOptions (opts "number"))];
                                FObject [("title", EOptions (opts "uuid"))] ];
             r_children := [ ("chapters", Some (leaf [FObject [("no", EOptions (opts "sequence"))]])) ] |});
    ("ghosts", None);
    ("shelves", Some (leaf [])) ].

(** Resources written under the keys [2], [1], [b], [ghosts] (null) and
    [a], in this order. *)
Definition lettered : list (string * option raw_resource) :=
  [ ("2", Some (leaf [])); ("1", Some (leaf [])); ("b", Some (leaf []));
    ("ghosts", None); ("a", Some (leaf [])) ].

End Config.

(** ** A chain of three roots for the earlier revision *)

Module Chain.

Definition def_c : resource_def :=
  {| name := "cs"; fields := [Fixture.plain "title" "string"]; children := [] |}.

Definition def_b : resource_def :=
  {| name := "bs"; fields := [Fixture.ref "c_id" "cs" false]; children := [] |}.

Definition def_a : resource_def :=
  {| name := "as";
     fields := [Fixture.ref "b_id" "bs" false; Fixture.plain "flag" "bool"];
     children := [] |}.

Definition roots : list resource_def := [def_a; def_b; def_c].

Definition proxies (_ : string) : bool := true.


(** Two instances of [bs] recorded, the second one next in turn. *)
Definition two_bs : Earlier.deps_object :=
  [ ("bs", {| Earlier.items := [ {| Earlier.item_id := VNumber 1; Earlier.item_func := "bs" |};
                                 {| Earlier.item_id := VNumber 2; Earlier.item_func := "bs" |} ];
              Earlier.index := 1 |}) ].

End Chain.

(** ** A small file system for es6_mocha.js *)

Module Disk.

(** Directories are cut at the last slash; only [/app] has a
    [package.json], and it asks for ES6. *)
Definition node : Es6Mocha.node :=
  {| Es6Mocha.dirname := λ f,
       match Es6Mocha.last_index_of "/" f with
       | Some k => String.substring 0 k f
       | None => "."
       end;
     Es6Mocha.join := λ a b, a +:+ "/" +:+ b;
     Es6Mocha.sep := "/";
     Es6Mocha.exists_sync := λ f, bool_decide (f = "/app/package.json");
     Es6Mocha.require := λ _, {| Es6Mocha.es6 := true |} |}.

End Disk.

(** * Properties *)

(** ** Test Object Factory *)

Section make_test_object_facts.
Context (h : host) (roots : list resource_def)
        (ls : gmap def_ref last_instance) (t : nat) (def : def_ref).

Lemma random_string_default k len : ∃ str, random_string h t k len None = Ok str.
Proof. unfold random_string. simpl. eauto. Qed.

Lemma make_fields_app fs1 fs2 o :
  make_fields h roots ls t def (fs1 ++ fs2) o =
  match make_fields h roots ls t def fs1 o with
  | Ok o1 => make_fields h roots ls t def fs2 o1
  | Throw e => Throw e
  | OutOfFuel => OutOfFuel
  end.
Proof.
  revert o. induction fs1 as [|f fs1 IH]; intros o; simpl; [done|].
  destruct (make_field h roots ls t def o f); auto.
Qed.

(** A field only ever writes the key that bears its name. *)
Lemma synthesize_other f o o' k :
  synthesize h t f o = Ok o' → k ≠ f_name f → instance o' !! k = instance o !! k.
Proof.
  unfold synthesize. intros H Hk.
  destruct (random_string_default (f_name f)
              match f_max_length f with Some 0 | None => 512 | Some n => n end) as [str Hs].
  rewrite Hs in H.
  repeat case_decide; inversion H; subst; simpl; try done;
    by rewrite lookup_insert_ne.
Qed.

Lemma make_field_other f o o' k :
  make_field h roots ls t def o f = Ok o' → k ≠ f_name f →
  instance o' !! k = instance o !! k.
Proof.
  unfold make_field. intros H Hk.
  destruct (from_of f) as [src|].
  - case_decide.
    + destruct (parent_of def) as [p|]; [|done].
      destruct (ls !! p).
      * inversion H; subst; simpl. by rewrite lookup_insert_ne.
      * destruct (def_at roots p); by inversion H.
    + by inversion H.
  - destruct (values_of f).
    + inversion H; subst; simpl. by rewrite lookup_insert_ne.
    + eapply synthesize_other; eassumption.
Qed.

Lemma make_fields_other fs o o' k :
  make_fields h roots ls t def fs o = Ok o' → k ∉ (f_name <$> fs) →
  instance o' !! k = instance o !! k.
Proof.
  revert o. induction fs as [|f fs IH]; intros o H Hk; simpl in *.
  - by inversion H.
  - destruct (make_field h roots ls t def o f) as [o1| |] eqn:E; try done.
    apply not_elem_of_cons in Hk as [Hk1 Hk2].
    rewrite (IH _ H Hk2). eapply make_field_other; eassumption.
Qed.

(** The only way to fail is a [<parent>] reference on a root. *)
Lemma make_field_total f o :
  (from_of f = Some parent_ref →
   ∃ p, parent_of def = Some p ∧ (is_Some (ls !! p) ∨ is_Some (def_at roots p))) →
  ∃ o', make_field h roots ls t def o f = Ok o'.
Proof.
  intros Hp. unfold make_field.
  destruct (from_of f) as [src|].
  - case_decide as Hsrc; [|eauto]. subst src.
    destruct Hp as (p & -> & Hl); [done|].
    destruct (ls !! p); [eauto|].
    destruct Hl as [[? ?]|[pd ->]]; [done|eauto].
  - destruct (values_of f); [eauto|].
    unfold synthesize.
    destruct (random_string_default (f_name f)
                match f_max_length f with Some 0 | None => 512 | Some n => n end) as [str ->].
    repeat case_decide; eauto.
Qed.

Lemma make_fields_total fs o :
  (∀ f, f ∈ fs → from_of f = Some parent_ref →
        ∃ p, parent_of def = Some p ∧ (is_Some (ls !! p) ∨ is_Some (def_at roots p))) →
  ∃ o', make_fields h roots ls t def fs o = Ok o'.
Proof.
  revert o. induction fs as [|f fs IH]; intros o Hp; simpl; [eauto|].
  destruct (make_field_total f o) as [o1 ->].
  - intros Hf. apply (Hp f); [left|done].
  - apply IH. intros g Hg. apply (Hp g). by right.
Qed.

End make_test_object_facts.

Lemma def_at_parent roots d x p :
  def_at roots d = Some x → parent_of d = Some p → is_Some (def_at roots p).
Proof.
  revert roots p. induction d as [|i q IH]; intros roots p Hd Hp; [done|].
  destruct q as [|j q']; [done|].
  injection Hp as <-. simpl in Hd.
  destruct (roots !! i) as [xi|] eqn:Hi; [|done].
  destruct q' as [|k q''].
  - simpl. rewrite Hi. eauto.
  - specialize (IH (children xi) (removelast (j :: k :: q'')) Hd eq_refl).
    change (removelast (i :: j :: k :: q'')) with (i :: removelast (j :: k :: q'')).
    simpl in *. rewrite Hi. exact IH.
Qed.

Lemma removelast_shorter {A} (l : list A) : l ≠ [] → S (length (removelast l)) = length l.
Proof.
  induction l as [|a [|b l] IH]; intros Hne; [done..|].
  change (removelast (a :: b :: l)) with (a :: removelast (b :: l)).
  cbn [length]. f_equal. by apply IH.
Qed.


Section make_test_object_shape.
Context (h : host) (roots : list resource_def)
        (ls : gmap def_ref last_instance) (t : nat) (def : def_ref).

(** Where one field's own step sits in the whole synthesis. *)
Lemma make_test_object_at_field x f :
  def_at roots def = Some x → f ∈ fields x → NoDup (f_name <$> fields x) →
  (parent_of def = None → ∀ g, g ∈ fields x → from_of g ≠ Some parent_ref) →
  ∃ o o1 o2,
    make_test_object h roots ls t def = Ok o ∧
    make_field h roots ls t def o1 f = Ok o2 ∧
    instance o1 !! f_name f = None ∧
    instance o !! f_name f = instance o2 !! f_name f.
Proof.
  intros Hx Hf Hnd Hroot.
  destruct (make_fields_total h roots ls t def (fields x) {| instance := ∅; deps := [] |})
    as [o Ho].
  { intros g Hg Hsrc. destruct (parent_of def) as [p|] eqn:Hp.
    - exists p. split; [done|]. right. by eapply def_at_parent.
    - by destruct (Hroot eq_refl g Hg). }
  apply list_elem_of_split in Hf as (l1 & l2 & Hsplit).
  rewrite Hsplit in Hnd, Ho.
  rewrite fmap_app, fmap_cons in Hnd.
  apply NoDup_app in Hnd as (_ & Hl1 & Hnd2).
  apply NoDup_cons in Hnd2 as [Hl2 _].
  rewrite make_fields_app in Ho. simpl in Ho.
  destruct (make_fields h roots ls t def l1 _) as [o1| |] eqn:E1; try done.
  destruct (make_field h roots ls t def o1 f) as [o2| |] eqn:E2; try done.
  exists o, o1, o2. unfold make_test_object. rewrite Hx, Hsplit.
  rewrite make_fields_app, E1. simpl. rewrite E2.
  repeat split; [done|..].
  - rewrite (make_fields_other _ _ _ _ _ _ _ _ _ E1); [done|].
    intros Hin. apply (Hl1 _ Hin). left.
  - by rewrite (make_fields_other _ _ _ _ _ _ _ _ _ Ho Hl2).
Qed.

End make_test_object_shape.

(** C9 (as amended).  A field of type [date] with no [from] and no
    candidate [values] is assigned [moment().format()], the current time; a
    field of type [timestamp] has no case in the switch and gets no key. *)
Theorem make_test_object_date_is_now h roots ls t def x f :
  def_at roots def = Some x → f ∈ fields x → NoDup (f_name <$> fields x) →
  from_of f = None → values_of f = None →
  (parent_of def = None → ∀ g, g ∈ fields x → from_of g ≠ Some parent_ref) →
  ∃ o, make_test_object h roots ls t def = Ok o ∧
       (f_type f = "date" → instance o !! f_name f = Some (VString (now h t))) ∧
       (f_type f = "timestamp" → instance o !! f_name f = None).
Proof.
  intros Hx Hf Hnd Hfrom Hvals Hroot.
  destruct (make_test_object_at_field h roots ls t def x f Hx Hf Hnd Hroot)
    as (o & o1 & o2 & Ho & Hstep & Hbefore & Hafter).
  exists o. split; [done|].
  unfold make_field in Hstep. rewrite Hfrom, Hvals in Hstep. unfold synthesize in Hstep.
  split; intros Hty; rewrite Hty in Hstep; simpl in Hstep;
    injection Hstep as <-; rewrite Hafter; simpl; [apply lookup_insert_eq | done].
Qed.

Ltac by_evaluation := apply (bool_decide_unpack _); vm_compute; exact I.

Lemma make_test_object_date_is_now_witness :
  ∃ o, make_test_object (Fixture.host_of None 204) Fixture.roots_ab ∅ 0 [0] = Ok o ∧
       instance o !! "when" = Some (VString "2015-06-01T12:00:00+00:00").
Proof.
  destruct (make_test_object_date_is_now (Fixture.host_of None 204) Fixture.roots_ab ∅ 0 [0]
              Fixture.def_a (Fixture.plain "when" "date"))
    as (o & Ho & Hdate & _).
  - reflexivity.
  - by_evaluation.
  - by_evaluation.
  - reflexivity.
  - reflexivity.
  - intros _. apply Forall_forall. by_evaluation.
  - exists o. split; [exact Ho|]. apply Hdate. reflexivity.
Defined.

(** C9, as stated, fails for [timestamp]: the field is left out. *)
Lemma make_test_object_timestamp_unassigned :
  ∃ o, make_test_object (Fixture.host_of None 204) Fixture.roots_ab ∅ 0 [0] = Ok o ∧
       def_at Fixture.roots_ab [0] = Some Fixture.def_a ∧
       Fixture.plain "stamp" "timestamp" ∈ fields Fixture.def_a ∧
       instance o !! "stamp" = None.
Proof.
  eexists. split; [vm_compute; reflexivity|].
  split; [reflexivity|]. split; [by_evaluation|].
  vm_compute. reflexivity.
Qed.

(** C10.  [sequence] and [binary] pass the type validation of [field_def],
    yet a field of either type with no [from] and no candidate [values] is
    absent from the synthesized instance. *)
Theorem make_test_object_skips_sequence_and_binary h roots ls t def x f :
  def_at roots def = Some x → f ∈ fields x → NoDup (f_name <$> fields x) →
  from_of f = None → values_of f = None →
  (parent_of def = None → ∀ g, g ∈ fields x → from_of g ≠ Some parent_ref) →
  f_type f = "sequence" ∨ f_type f = "binary" →
  check_type (Some (f_type f)) = Ok (f_type f) ∧
  ∃ o, make_test_object h roots ls t def = Ok o ∧ instance o !! f_name f = None.
Proof.
  intros Hx Hf Hnd Hfrom Hvals Hroot Hty.
  split.
  { by destruct Hty as [-> | ->]. }
  destruct (make_test_object_at_field h roots ls t def x f Hx Hf Hnd Hroot)
    as (o & o1 & o2 & Ho & Hstep & Hbefore & Hafter).
  exists o. split; [done|].
  unfold make_field in Hstep. rewrite Hfrom, Hvals in Hstep. unfold synthesize in Hstep.
  destruct Hty as [Hty | Hty]; rewrite Hty in Hstep; simpl in Hstep;
    injection Hstep as <-; by rewrite Hafter.
Qed.

Lemma make_test_object_skips_sequence_and_binary_witness :
  ∃ o, make_test_object (Fixture.host_of None 204) Fixture.roots_ab ∅ 0 [0] = Ok o ∧
       instance o !! "blob" = None.
Proof.
  destruct (make_test_object_skips_sequence_and_binary
              (Fixture.host_of None 204) Fixture.roots_ab ∅ 0 [0]
              Fixture.def_a (Fixture.plain "blob" "binary"))
    as (_ & o & Ho & Habsent).
  - reflexivity.
  - by_evaluation.
  - by_evaluation.
  - reflexivity.
  - reflexivity.
  - intros _. apply Forall_forall. by_evaluation.
  - right. reflexivity.
  - exists o. split; [exact Ho | exact Habsent].
Defined.

(** ** Resource Definition Tree and API Path Binder *)

(** A segment that matches nothing is passed over. *)
Lemma find_loop_skips segment rest defs at_ current :
  first_named segment defs 0 = None →
  find_loop (segment :: rest) defs at_ current = find_loop rest defs at_ current.
Proof. intros H. simpl. by rewrite H. Qed.

(** C4.  [find_resource_def] does not report not-found when a later
    segment has no match: for ["as/zz"], with no [zz] under [as], it
    returns the definition matched by the prefix ["as"]. *)
Theorem find_resource_def_returns_prefix_match :
  split_on "/" "as/zz" = ["as"; "zz"] ∧
  first_named "zz" (children Fixture.def_a) 0 = None ∧
  find_resource_def Fixture.roots_ab "as/zz" = Some [0].
Proof. repeat split; reflexivity. Qed.

(** A root is bound by entering its collection. *)
Lemma get_api_for_def_root h roots ls i x :
  roots !! i = Some x → get_api_for_def h roots ls [i] = Ok [(name x, [])].
Proof. intros H. unfold get_api_for_def. simpl. by rewrite H. Qed.




(** C5.  With three owners above [ds], whose live instances have ids 1,
    2 and 3, every scoped level receives the id of the immediate parent
    of [ds] (3), and the owner [bs] is entered as a collection. *)
Theorem get_api_for_def_scopes_by_immediate_parent :
  last_id <$> Fixture.deep_lasts !! [0] = Some (VNumber 1) ∧
  last_id <$> Fixture.deep_lasts !! [0; 0] = Some (VNumber 2) ∧
  last_id <$> Fixture.deep_lasts !! [0; 0; 0] = Some (VNumber 3) ∧
  get_api_for_def (Fixture.host_of None 204) Fixture.roots_deep Fixture.deep_lasts [0; 0; 0; 0]
  = Ok [("a", [VNumber 3]); ("bs", []); ("c", [VNumber 3]); ("ds", [])].
Proof. repeat split; vm_compute; reflexivity. Qed.

(** ** Cleanup Orchestrator *)








Lemma prefix_refl s : String.prefix s s = true.
Proof. induction s as [|a s IH]; simpl; [done|]. by destruct (ascii_dec a a). Qed.

(** A name contains itself, at position 0. *)
Lemma index_of_self s : index_of s s = 0%Z.
Proof.
  unfold index_of. destruct s as [|a s]; [done|].
  cbn [String.index]. by rewrite prefix_refl.
Qed.

(** C6 (as amended).  A field with a non-parent [from] whose referenced
    definition is live is deferred when its [dont_delete] flag is set, or
    when the deleting definition has a parent whose name contains the
    [from] string: the pair is pushed onto [_cleanups] and no [last] is
    cleared.  Only the immediate parent is examined. *)
Theorem delete_field_defers h roots n def f src temp l0 s :
  from_of f = Some src → src ≠ parent_ref →
  find_resource_def roots src = Some temp →
  lasts s !! temp = Some l0 →
  (f_dont_delete f = true ∨
   ∃ p pd, parent_of def = Some p ∧ def_at roots p = Some pd ∧
           (0 ≤ index_of (name pd) src)%Z) →
  delete_field (delete_dependent_resources h roots n) h roots def f s =
  (Ok tt, {| lasts := lasts s; calls := calls s;
             cleanups := cleanups s ++ [{| o_def := temp; o_id := last_id l0 |}];
             tick := tick s |}).
Proof.
  intros Hfrom Hsrc Hfind Hlive Hdefer.
  unfold delete_field. rewrite Hfrom, decide_False, Hfind by done.
  unfold bind at 1, get_last. rewrite Hlive.
  assert (negb (f_dont_delete f) && outside_parent roots def src = false) as ->; [|done].
  destruct Hdefer as [-> | (p & pd & Hp & Hpd & Hidx)]; [done|].
  unfold outside_parent. rewrite Hp, Hpd.
  apply andb_false_intro2. by apply Z.ltb_ge.
Qed.

Lemma delete_field_defers_witness :
  delete_field (delete_dependent_resources (Fixture.host_of None 204) Fixture.roots_family 1)
    (Fixture.host_of None 204) Fixture.roots_family [0; 0] (Fixture.ref "b_id" "bs" false)
    {| lasts := {[ [0] := Fixture.live 1 ]}; calls := []; cleanups := []; tick := 0 |} =
  (Ok tt, {| lasts := {[ [0] := Fixture.live 1 ]}; calls := [];
             cleanups := [{| o_def := [0]; o_id := VNumber 1 |}]; tick := 0 |}).
Proof.
  refine (delete_field_defers (Fixture.host_of None 204) Fixture.roots_family 1 [0; 0]
            (Fixture.ref "b_id" "bs" false) "bs" [0] (Fixture.live 1)
            {| lasts := {[ [0] := Fixture.live 1 ]}; calls := []; cleanups := []; tick := 0 |}
            _ _ _ _ _).
  - reflexivity.
  - by_evaluation.
  - reflexivity.
  - reflexivity.
  - right. exists [0], {| name := "bs"; fields := []; children :=
        [ {| name := "cs"; fields := [Fixture.ref "b_id" "bs" false]; children := [] |} ] |}.
    split; [reflexivity|]. split; [reflexivity|]. by_evaluation.
Defined.

(** C6, as stated, fails for an ancestor that is not the immediate
    parent: [cs] under [as/bs] refers to its grandparent [as], which is
    live, and cleaning up [cs] deletes [as] and clears its [last]; nothing
    is queued. *)
Lemma delete_dependent_resources_deletes_grandparent :
  parent_of [0; 0; 0] = Some [0; 0] ∧ parent_of [0; 0] = Some [0] ∧
  find_resource_def Fixture.roots_deep "as" = Some [0] ∧
  name <$> def_at Fixture.roots_deep [0] = Some "as" ∧
  is_Some (Fixture.deep_lasts !! [0]) ∧
  ∃ s', delete_dependent_resources (Fixture.host_of None 204) Fixture.roots_deep 2 [0; 0; 0]
          {| lasts := Fixture.deep_lasts; calls := []; cleanups := []; tick := 0 |}
        = (Ok tt, s') ∧
        cleanups s' = [] ∧ lasts s' !! [0] = None ∧
        calls s' = [ {| target := [0]; via := [("as", [])]; op := DeleteById (VNumber 1) |} ].
Proof.
  repeat split; try reflexivity; [by_evaluation|].
  eexists. split; [vm_compute; reflexivity|].
  repeat split; vm_compute; reflexivity.
Qed.





(** ** Dependency Resolver *)

Lemma grows_from_same {A} (c : M A) s :
  (∀ out s', c s = (out, s') →
             lasts s' = lasts s ∧ calls s' = calls s ∧ cleanups s' = cleanups s) →
  grows_from c s.
Proof.
  intros H out s' Hrun. destruct (H out s' Hrun) as (Hl & Hc & Hq).
  rewrite Hl, Hc, Hq. repeat split; [done|].
  exists []. by rewrite app_nil_r.
Qed.

Lemma grows_bind {A B} (c : M A) (k : A → M B) s :
  grows_from c s →
  (∀ a s1, c s = (Ok a, s1) → grows_from (k a) s1) →
  grows_from (bind c k) s.
Proof.
  intros Hc Hk out s' Hrun. unfold bind in Hrun.
  destruct (c s) as [[a|e|] s1] eqn:E.
  - destruct (Hc _ _ E) as (Hl1 & Hq1 & extra1 & Hc1 & Hf1).
    destruct (Hk a s1 eq_refl _ _ Hrun) as (Hl2 & Hq2 & extra2 & Hc2 & Hf2).
    split; [by etrans|]. split; [congruence|].
    exists (extra1 ++ extra2). split; [by rewrite Hc2, Hc1, app_assoc|].
    apply Forall_app. split; [done|].
    eapply Forall_impl; [exact Hf2|]. intros c0 [Hnone Hcr]. split; [|done].
    by eapply lookup_weaken_None.
  - injection Hrun as <- <-. exact (Hc _ _ E).
  - injection Hrun as <- <-. exact (Hc _ _ E).
Qed.

Ltac same_state :=
  apply grows_from_same; intros ? ? Hsame; cbv in Hsame;
  by injection Hsame as <- <-.

Lemma resolve_deps_grows create roots ds :
  (∀ d, grows (create d)) → ∀ inst, grows (resolve_deps create roots ds inst).
Proof.
  intros Hcreate. induction ds as [|x rest IH]; intros inst s; simpl.
  - same_state.
  - destruct (find_resource_def roots (from x)) as [dep_def|]; [|same_state].
    apply grows_bind; [apply Hcreate|].
    intros [[? [body|]]|] s1 _; [apply IH|same_state..].
Qed.

Lemma synthesize_and_resolve_grows create h roots def :
  (∀ d, grows (create d)) → grows (synthesize_and_resolve create h roots def).
Proof.
  intros Hcreate s. unfold synthesize_and_resolve.
  apply grows_bind; [same_state|]. intros t s1 _.
  apply grows_bind; [same_state|]. intros ls s2 _.
  apply grows_bind; [same_state|]. intros obj s3 _.
  by apply resolve_deps_grows.
Qed.

Lemma create_resource_from_def_grows h roots n :
  ∀ def, grows (create_resource_from_def h roots n def).
Proof.
  induction n as [|n IH]; intros def s; simpl; [same_state|].
  apply grows_bind; [by apply synthesize_and_resolve_grows|].
  intros inst s1 _.
  intros out s' Hrun. unfold bind, get_last, get_lasts, lift, call_remote in Hrun.
  destruct (lasts s1 !! def) as [l|] eqn:Hl.
  { injection Hrun as <- <-. repeat split; [done|]. exists []. by rewrite app_nil_r. }
  destruct (get_api_for_def h roots (lasts s1) def) as [api| |].
  2,3: injection Hrun as <- <-; repeat split; [done|]; exists []; by rewrite app_nil_r.
  destruct (remote h _ api (Create inst)) as [[rsp [body|]]|];
    cbv [set_last ret throw resource] in Hrun; injection Hrun as <- <-; simpl;
    (split; [first [done | by apply insert_subseteq]|]); (split; [done|]);
    eexists; (split; [reflexivity|]); by repeat constructor.
Qed.

(** Synthesis against a larger store of instances asks for no dependency
    that it did not ask for before. *)
Lemma synthesize_shape h t f o :
  ∃ o', synthesize h t f o = Ok o' ∧ deps o' = deps o.
Proof.
  unfold synthesize.
  destruct (random_string_default h t (f_name f)
              match f_max_length f with Some 0 | None => 512 | Some n => n end) as [str ->].
  repeat case_decide; eauto.
Qed.

Section synthesis_is_monotone.
Context (h : host) (roots : list resource_def) (def : def_ref)
        (ls ls2 : gmap def_ref last_instance) (t t2 : nat).
Hypothesis Hls : ls ⊆ ls2.

Lemma make_field_mono f o o' o2 :
  make_field h roots ls t def o f = Ok o' →
  deps o2 ⊆ deps o →
  ∃ o2', make_field h roots ls2 t2 def o2 f = Ok o2' ∧ deps o2' ⊆ deps o'.
Proof using Hls.
  unfold make_field. intros H Hsub.
  destruct (from_of f) as [src|].
  - case_decide.
    + destruct (parent_of def) as [p|]; [|done].
      destruct (ls !! p) as [l|] eqn:Hl.
      * rewrite (lookup_weaken _ _ _ _ Hl Hls). injection H as <-. eauto.
      * destruct (def_at roots p) as [pd|]; [|done]. injection H as <-.
        destruct (ls2 !! p); eexists; (split; [done|]); simpl; set_solver.
    + injection H as <-. eexists. split; [done|]. simpl. set_solver.
  - destruct (values_of f).
    + injection H as <-. eauto.
    + destruct (synthesize_shape h t f o) as (o1 & H1 & Hd1).
      destruct (synthesize_shape h t2 f o2) as (o2' & H2 & Hd2).
      rewrite H1 in H. injection H as <-. exists o2'. split; [done|].
      by rewrite Hd2, Hd1.
Qed.

Lemma make_fields_mono fs o o' o2 :
  make_fields h roots ls t def fs o = Ok o' →
  deps o2 ⊆ deps o →
  ∃ o2', make_fields h roots ls2 t2 def fs o2 = Ok o2' ∧ deps o2' ⊆ deps o'.
Proof using Hls.
  revert o o2. induction fs as [|f fs IH]; intros o o2 H Hsub; simpl in *.
  - injection H as <-. eauto.
  - destruct (make_field h roots ls t def o f) as [o1| |] eqn:E; try done.
    destruct (make_field_mono f o o1 o2 E Hsub) as (o3 & -> & Hsub3).
    by eapply IH.
Qed.

Lemma make_test_object_mono obj :
  make_test_object h roots ls t def = Ok obj →
  ∃ obj2, make_test_object h roots ls2 t2 def = Ok obj2 ∧ deps obj2 ⊆ deps obj.
Proof using Hls.
  unfold make_test_object. destruct (def_at roots def) as [x|]; [|done].
  intros H. by eapply make_fields_mono.
Qed.

End synthesis_is_monotone.

Lemma with_tick_same s : with_tick s (tick s) = s.
Proof. by destruct s. Qed.

Lemma dep_settled_later create roots s1 s1' x :
  lasts s1 ⊆ lasts s1' → dep_settled create roots s1 x → dep_settled create roots s1' x.
Proof.
  intros Hsub (dd & r & body & Hfind & Hres & Hrep).
  exists dd, r, body. repeat split; try done.
  intros s2 Hs2. apply Hrep. by etrans.
Qed.

Section resolution.
Context (create : def_ref → M (option result)) (roots : list resource_def).
Hypothesis create_grows : ∀ d, grows (create d).
Hypothesis create_replays :
  ∀ d s r s1, create d s = (Ok (Some r), s1) → replays (create d) r s1.

Lemma resolve_deps_settles ds :
  ∀ inst s inst' s',
    resolve_deps create roots ds inst s = (Ok inst', s') →
    Forall (dep_settled create roots s') ds.
Proof using create_grows create_replays.
  induction ds as [|x rest IH]; intros inst s inst' s' Hrun; [constructor|].
  simpl in Hrun.
  destruct (find_resource_def roots (from x)) as [dd|] eqn:Hfind; [|done].
  unfold bind in Hrun.
  destruct (create dd s) as [[[[rsp [body|]]|]|e|] s1] eqn:Hc; try done.
  constructor; [|by eapply IH].
  destruct (resolve_deps_grows create roots rest create_grows _ _ _ _ Hrun) as [Hsub _].
  apply (dep_settled_later _ _ s1); [done|].
  exists dd, {| response_of := rsp; resource := Some body |}, body.
  repeat split; [done|]. by eapply create_replays.
Qed.

Lemma resolve_deps_replay s1 ds :
  Forall (dep_settled create roots s1) ds →
  ∀ inst s2, lasts s1 ⊆ lasts s2 →
             ∃ inst' t, resolve_deps create roots ds inst s2 = (Ok inst', with_tick s2 t).
Proof using Type.
  induction 1 as [|x rest (dd & r & body & Hfind & Hres & Hrep) _ IH]; intros inst s2 Hsub.
  - exists inst, (tick s2). simpl. unfold ret. by rewrite with_tick_same.
  - simpl. rewrite Hfind. unfold bind.
    destruct (Hrep s2 Hsub) as [t ->].
    destruct r as [rsp res]. simpl in Hres. subst res.
    destruct (IH (<[field x := r_id body]> inst) (with_tick s2 t) Hsub) as (inst' & t' & ->).
    by exists inst', t'.
Qed.

End resolution.

(** A successful creation leaves the definition with a cached instance
    holding the answer, and can be replayed. *)
Lemma create_resource_from_def_settles h roots n :
  ∀ def s r s1,
    create_resource_from_def h roots n def s = (Ok (Some r), s1) →
    (∃ l, lasts s1 !! def = Some l ∧ last_obj l = r) ∧
    replays (create_resource_from_def h roots n def) r s1.
Proof.
  induction n as [|n IH]; intros def s r s1 Hrun; [done|].
  simpl in Hrun. unfold bind at 1 in Hrun.
  destruct (synthesize_and_resolve _ h roots def s) as [[inst|e|] sb] eqn:Hphase; try done.
  pose proof (synthesize_and_resolve_grows _ h roots def
                (create_resource_from_def_grows h roots n) _ _ _ Hphase) as [Hgrow _].
  unfold synthesize_and_resolve, bind at 1 2 3, next_tick, get_lasts, lift in Hphase.
  simpl in Hphase.
  destruct (make_test_object h roots (lasts s) (tick s) def) as [obj| |] eqn:Hobj; try done.
  assert (Hsettled : Forall (dep_settled (create_resource_from_def h roots n) roots sb) (deps obj)).
  { eapply resolve_deps_settles; [apply create_resource_from_def_grows| |exact Hphase].
    intros d s0 r0 s0' H0. by apply (IH d s0 r0 s0'). }
  assert (Hcached : lasts sb ⊆ lasts s1 ∧ ∃ l, lasts s1 !! def = Some l ∧ last_obj l = r).
  { unfold bind, get_last, get_lasts, lift, call_remote in Hrun.
    destruct (lasts sb !! def) as [l|] eqn:Hl.
    - injection Hrun as <- <-. eauto.
    - destruct (get_api_for_def h roots (lasts sb) def) as [api| |]; try done.
      destruct (remote h _ api (Create inst)) as [[rsp [body|]]|];
        cbv [set_last ret throw resource] in Hrun; try done.
      injection Hrun as <- <-. simpl. split; [by apply insert_subseteq|].
      eexists. split; [apply lookup_insert_eq|done]. }
  destruct Hcached as (Hsub & l & Hl & Hobj_l).
  split; [eauto|].
  intros s2 Hs2.
  destruct (make_test_object_mono h roots def (lasts s) (lasts s2) (tick s) (tick s2)
              ltac:(by repeat (etrans; [eassumption|])) obj Hobj) as (obj2 & Hobj2 & Hdeps).
  assert (Hsettled2 : Forall (dep_settled (create_resource_from_def h roots n) roots sb) (deps obj2)).
  { apply Forall_forall. intros x Hx. apply (proj1 (Forall_forall _ _) Hsettled). by apply Hdeps. }
  destruct (resolve_deps_replay _ roots sb (deps obj2) Hsettled2 (instance obj2)
              (with_tick s2 (S (tick s2))) ltac:(by etrans)) as (inst' & t' & Hloop).
  exists t'. simpl.
  unfold bind at 1. unfold synthesize_and_resolve, bind at 1 2 3, next_tick, get_lasts, lift.
  simpl. rewrite Hobj2. fold (with_tick s2 (S (tick s2))). rewrite Hloop.
  unfold bind, get_last. simpl.
  rewrite (lookup_weaken _ _ _ _ Hl Hs2). by rewrite Hobj_l.
Qed.

(** C1 (as amended).  When [def.last] is set, [create_resource_from_def]
    still synthesizes an object and resolves every dependency first; once
    that phase has completed it returns the cached response, leaves
    [def.last] as it was, and none of the calls made was for [def]: they
    are create calls for dependencies. *)
Theorem create_resource_from_def_cached_after_resolution h roots n def s l inst s1 :
  lasts s !! def = Some l →
  synthesize_and_resolve (create_resource_from_def h roots n) h roots def s = (Ok inst, s1) →
  create_resource_from_def h roots (S n) def s = (Ok (Some (last_obj l)), s1) ∧
  lasts s1 !! def = Some l ∧
  ∃ extra, calls s1 = calls s ++ extra ∧
           Forall (λ c, target c ≠ def ∧ is_create (op c)) extra.
Proof.
  intros Hl Hphase.
  destruct (synthesize_and_resolve_grows _ h roots def
              (create_resource_from_def_grows h roots n) _ _ _ Hphase)
    as (Hsub & _ & extra & Hcalls & Hextra).
  pose proof (lookup_weaken _ _ _ _ Hl Hsub) as Hl1.
  repeat split; [|done|].
  - simpl. unfold bind at 1. rewrite Hphase. unfold bind, get_last. by rewrite Hl1.
  - exists extra. split; [done|].
    eapply Forall_impl; [exact Hextra|]. intros c [Hnone Hcr]. split; [|done].
    intros Heq. rewrite Heq in Hnone. congruence.
Qed.

Lemma create_resource_from_def_cached_after_resolution_witness :
  create_resource_from_def (Fixture.host_of None 204) Fixture.roots_ab 2 [0]
    Fixture.after_first_create
  = (Ok (Some (Fixture.created 2 None)), Fixture.phase_a_again.2).
Proof.
  refine (proj1 (create_resource_from_def_cached_after_resolution
                   (Fixture.host_of None 204) Fixture.roots_ab 1 [0]
                   Fixture.after_first_create (Fixture.live 2)
                   Fixture.inst_a_again Fixture.phase_a_again.2 _ _)).
  - vm_compute. reflexivity.
  - vm_compute. reflexivity.
Defined.

(** C1, as stated, fails: with [as] live and its dependency [bs] not,
    the call for [as] looks [bs] up, creates it remotely, and only then
    returns the cached response of [as]. *)
Lemma create_resource_from_def_cached_still_creates_dependency :
  lasts Fixture.only_a_live !! [0] = Some (Fixture.live 9) ∧
  lasts Fixture.only_a_live !! [1] = None ∧
  ∃ s1, create_resource_from_def (Fixture.host_of None 204) Fixture.roots_ab 2 [0]
          Fixture.only_a_live = (Ok (Some (last_obj (Fixture.live 9))), s1) ∧
        (λ c, (target c, via c)) <$> calls s1 = [([1], [("bs", [])])] ∧
        last_id <$> lasts s1 !! [1] = Some (VNumber 1).
Proof.
  split; [reflexivity|]. split; [reflexivity|].
  eexists. split; [vm_compute; reflexivity|].
  split; vm_compute; reflexivity.
Qed.

(** C2.  After a call that returned a response, a second call in any
    state that still has the cached instances (nothing was deleted)
    returns the same response, hence the same id, and it makes no remote
    call and changes no [last]. *)
Theorem create_resource_from_def_reuses_instance h roots n def s r s1 s2 :
  create_resource_from_def h roots n def s = (Ok (Some r), s1) →
  lasts s1 ⊆ lasts s2 →
  ∃ l s3,
    lasts s1 !! def = Some l ∧ last_obj l = r ∧
    create_resource_from_def h roots n def s2 = (Ok (Some r), s3) ∧
    calls s3 = calls s2 ∧ lasts s3 = lasts s2 ∧ cleanups s3 = cleanups s2.
Proof.
  intros Hrun Hsub.
  destruct (create_resource_from_def_settles h roots n def s r s1 Hrun)
    as ((l & Hl & Hobj) & Hrep).
  destruct (Hrep s2 Hsub) as [t Hagain].
  exists l, (with_tick s2 t). by repeat split.
Qed.

Lemma create_resource_from_def_reuses_instance_witness :
  ∃ s3,
    create_resource_from_def (Fixture.host_of None 204) Fixture.roots_ab 2 [0]
      Fixture.after_first_create = (Ok (Some (Fixture.created 2 None)), s3) ∧
    calls s3 = calls Fixture.after_first_create.
Proof.
  destruct (create_resource_from_def_reuses_instance
              (Fixture.host_of None 204) Fixture.roots_ab 2 [0] Fixture.empty_state
              (Fixture.created 2 None) Fixture.after_first_create Fixture.after_first_create)
    as (l & s3 & _ & _ & Hagain & Hcalls & _).
  - vm_compute. reflexivity.
  - reflexivity.
  - exists s3. split; [exact Hagain | exact Hcalls].
Defined.





(** * Further properties *)

(** ** random_string *)

Lemma string_get_lt n s : n < String.length s → ∃ c, String.get n s = Some c.
Proof.
  revert n. induction s as [|a s IH]; intros n Hn; simpl in *; [lia|].
  destruct n as [|n]; [eauto|]. apply IH. lia.
Qed.

Lemma string_get_elem n s c :
  String.get n s = Some c → c ∈ list_ascii_of_string s.
Proof.
  revert n. induction s as [|a s IH]; intros n H; simpl in *; [done|].
  destruct n as [|n]; [injection H as ->; left | right; by eapply IH].
Qed.

Lemma random_string_loop_chars chars bytes cursor :
  chars ≠ "" →
  String.length (random_string_loop chars bytes cursor) = length bytes ∧
  ∀ c, c ∈ list_ascii_of_string (random_string_loop chars bytes cursor) →
       c ∈ list_ascii_of_string chars.
Proof.
  intros Hne. revert cursor. induction bytes as [|b rest IH]; intros cursor; simpl.
  - split; [done|]. intros c Hc. by apply elem_of_nil in Hc.
  - destruct (string_get_lt
                (N.to_nat ((cursor + b) mod N.of_nat (String.length chars))) chars)
      as [ch Hch].
    { assert (String.length chars ≠ 0) by (destruct chars; simpl; [done|lia]).
      pose proof (N.mod_lt (cursor + b) (N.of_nat (String.length chars))). lia. }
    rewrite Hch. simpl. destruct (IH (cursor + b)%N) as [Hlen Hin].
    split; [by rewrite Hlen|].
    intros c Hc. apply elem_of_cons in Hc as [->|Hc]; [by eapply string_get_elem|by apply Hin].
Qed.

Lemma alphabet_of_nonempty chars : alphabet_of chars ≠ "".
Proof. unfold alphabet_of. destruct chars as [c|]; [case_decide|]; done. Qed.

(** X1.  [random_string] throws when the alphabet in force has more than
    256 characters; otherwise it returns a string of exactly the length
    asked for, made only of characters of that alphabet (the default one
    when [chars] is missing or empty). *)
Theorem random_string_length_and_alphabet h t k len chars :
  if Nat.ltb 256 (String.length (alphabet_of chars))
  then ∃ msg, random_string h t k len chars = Throw (Error msg)
  else ∃ str, random_string h t k len chars = Ok str ∧
              String.length str = len ∧
              ∀ c, c ∈ list_ascii_of_string str →
                   c ∈ list_ascii_of_string (alphabet_of chars).
Proof.
  unfold random_string. fold (alphabet_of chars).
  destruct (Nat.ltb 256 (String.length (alphabet_of chars))); [eauto|].
  eexists. split; [done|].
  destruct (random_string_loop_chars (alphabet_of chars) (random_bytes h t k len) 0%N
              (alphabet_of_nonempty chars)) as [Hlen Hin].
  split; [|done]. rewrite Hlen. unfold random_bytes. by rewrite length_fmap, length_seq.
Qed.

(** ** make_test_object, field by field *)

Section make_test_object_deps.
Context (h : host) (roots : list resource_def)
        (ls : gmap def_ref last_instance) (t : nat) (def : def_ref).

(** One field adds at most one dependency, and only if it has a [from]. *)
Lemma make_field_deps f o o' :
  make_field h roots ls t def o f = Ok o' →
  deps o' = deps o ∨
  ∃ src, is_Some (from_of f) ∧ deps o' = deps o ++ [{| field := f_name f; from := src |}].
Proof.
  unfold make_field. intros H.
  destruct (from_of f) as [src|] eqn:Hfrom.
  - case_decide.
    + destruct (parent_of def) as [p|]; [|done].
      destruct (ls !! p); [injection H as <-; by left|].
      destruct (def_at roots p) as [pd|]; [|done]. injection H as <-. right. eauto.
    + injection H as <-. right. eauto.
  - left. destruct (values_of f); [by injection H as <-|].
    destruct (synthesize_shape h t f o) as (o1 & H1 & Hd1). congruence.
Qed.

Lemma make_fields_deps fs o o' :
  make_fields h roots ls t def fs o = Ok o' →
  ∃ more, deps o' = deps o ++ more ∧
          ∀ x, x ∈ more → ∃ g, g ∈ fs ∧ field x = f_name g ∧ is_Some (from_of g).
Proof.
  revert o. induction fs as [|f fs IH]; intros o H; simpl in H.
  - injection H as <-. exists []. split; [by rewrite app_nil_r|]. intros x Hx.
    by apply elem_of_nil in Hx.
  - destruct (make_field h roots ls t def o f) as [o1| |] eqn:E; try done.
    destruct (IH _ H) as (more & Hmore & Hfrom).
    destruct (make_field_deps _ _ _ E) as [Hd | (src & Hsome & Hd)].
    + exists more. split; [congruence|]. intros x Hx.
      destruct (Hfrom x Hx) as (g & Hg & ?). exists g. split; [by right|done].
    + exists ({| field := f_name f; from := src |} :: more).
      split; [rewrite Hmore, Hd; by rewrite <- app_assoc|].
      intros x Hx. apply elem_of_cons in Hx as [->|Hx].
      * exists f. split; [left|done].
      * destruct (Hfrom x Hx) as (g & Hg & ?). exists g. split; [by right|done].
Qed.

(** Where one field's own step sits, with the dependencies around it. *)
Lemma make_test_object_around_field x f :
  def_at roots def = Some x → f ∈ fields x → NoDup (f_name <$> fields x) →
  (parent_of def = None → ∀ g, g ∈ fields x → from_of g ≠ Some parent_ref) →
  ∃ o o1 o2 post,
    make_test_object h roots ls t def = Ok o ∧
    make_field h roots ls t def o1 f = Ok o2 ∧
    instance o1 !! f_name f = None ∧
    instance o !! f_name f = instance o2 !! f_name f ∧
    deps o = deps o2 ++ post ∧
    (∀ y, y ∈ deps o1 → field y ≠ f_name f) ∧
    (∀ y, y ∈ post → field y ≠ f_name f).
Proof.
  intros Hx Hf Hnd Hroot.
  destruct (make_fields_total h roots ls t def (fields x) {| instance := ∅; deps := [] |})
    as [o Ho].
  { intros g Hg Hsrc. destruct (parent_of def) as [p|] eqn:Hp.
    - exists p. split; [done|]. right. by eapply def_at_parent.
    - by destruct (Hroot eq_refl g Hg). }
  apply list_elem_of_split in Hf as (l1 & l2 & Hsplit).
  rewrite Hsplit in Hnd, Ho.
  rewrite fmap_app, fmap_cons in Hnd.
  apply NoDup_app in Hnd as (_ & Hl1 & Hnd2).
  apply NoDup_cons in Hnd2 as [Hl2 _].
  rewrite make_fields_app in Ho. simpl in Ho.
  destruct (make_fields h roots ls t def l1 _) as [o1| |] eqn:E1; try done.
  destruct (make_field h roots ls t def o1 f) as [o2| |] eqn:E2; try done.
  destruct (make_fields_deps _ _ _ E1) as (pre & Hpre & Hpre_from).
  destruct (make_fields_deps _ _ _ Ho) as (post & Hpost & Hpost_from).
  exists o, o1, o2, post. unfold make_test_object. rewrite Hx, Hsplit.
  rewrite make_fields_app, E1. simpl. rewrite E2.
  repeat split; try done.
  - rewrite (make_fields_other _ _ _ _ _ _ _ _ _ E1); [done|].
    intros Hin. apply (Hl1 _ Hin). left.
  - by rewrite (make_fields_other _ _ _ _ _ _ _ _ _ Ho Hl2).
  - intros y Hy Heq. simpl in Hpre. rewrite Hpre in Hy.
    destruct (Hpre_from y Hy) as (g & Hg & Hname & _).
    apply (Hl1 (f_name g)); [by apply list_elem_of_fmap_2|]. rewrite <- Hname, Heq. left.
  - intros y Hy Heq. destruct (Hpost_from y Hy) as (g & Hg & Hname & _).
    apply Hl2. rewrite <- Heq, Hname. by apply list_elem_of_fmap_2.
Qed.

End make_test_object_deps.

Lemma filter_none {A} (P : A → Prop) `{∀ y, Decision (P y)} (l : list A) :
  (∀ y, y ∈ l → ¬ P y) → filter P l = [].
Proof.
  induction l as [|a l IH]; intros Hl; [done|].
  rewrite filter_cons_False by (apply Hl; left).
  apply IH. intros y Hy. apply Hl. by right.
Qed.

Section make_test_object_fields.
Context (h : host) (roots : list resource_def)
        (ls : gmap def_ref last_instance) (t : nat) (def : def_ref)
        (x : resource_def) (f : field_def).
Hypothesis Hdef : def_at roots def = Some x.
Hypothesis Hfield : f ∈ fields x.
Hypothesis Hnames : NoDup (f_name <$> fields x).
Hypothesis Hroot :
  parent_of def = None → ∀ g, g ∈ fields x → from_of g ≠ Some parent_ref.

(** X2.  A [string] field with no [from] and no candidate values gets a
    random string of exactly [max_length] characters (512 when
    [max_length] is missing or 0), all taken from the default alphabet. *)
Theorem make_test_object_string_field :
  from_of f = None → values_of f = None → f_type f = "string" →
  ∃ o str, make_test_object h roots ls t def = Ok o ∧
           instance o !! f_name f = Some (VString str) ∧
           String.length str = length_of f ∧
           ∀ c, c ∈ list_ascii_of_string str → c ∈ list_ascii_of_string default_chars.
Proof using Hdef Hfield Hnames Hroot.
  intros Hfrom Hvals Hty.
  destruct (make_test_object_around_field h roots ls t def x f Hdef Hfield Hnames Hroot)
    as (o & o1 & o2 & post & Ho & Hstep & _ & Hafter & _).
  unfold make_field in Hstep. rewrite Hfrom, Hvals in Hstep. unfold synthesize in Hstep.
  rewrite Hty in Hstep. rewrite decide_False, decide_True in Hstep by done.
  fold (length_of f) in Hstep.
  pose proof (random_string_loop_chars default_chars
                (random_bytes h t (f_name f) (length_of f)) 0%N ltac:(done)) as [Hlen Hin].
  unfold random_string in Hstep. cbn [Nat.ltb Nat.leb String.length default_chars] in Hstep.
  change (Nat.ltb 256 (String.length default_chars)) with false in Hstep.
  injection Hstep as <-.
  exists o, (random_string_loop default_chars (random_bytes h t (f_name f) (length_of f)) 0).
  split; [done|]. split; [rewrite Hafter; apply lookup_insert_eq|].
  split; [|done]. rewrite Hlen. unfold random_bytes. by rewrite length_fmap, length_seq.
Qed.

(** X3.  A [number] field with no [from] and no candidate values gets an
    integer between 0 and 65535. *)
Theorem make_test_object_number_field :
  from_of f = None → values_of f = None → f_type f = "number" →
  ∃ o n, make_test_object h roots ls t def = Ok o ∧
         instance o !! f_name f = Some (VNumber n) ∧ (0 ≤ n < 65536)%Z.
Proof using Hdef Hfield Hnames Hroot.
  intros Hfrom Hvals Hty.
  destruct (make_test_object_around_field h roots ls t def x f Hdef Hfield Hnames Hroot)
    as (o & o1 & o2 & post & Ho & Hstep & _ & Hafter & _).
  unfold make_field in Hstep. rewrite Hfrom, Hvals in Hstep. unfold synthesize in Hstep.
  rewrite Hty in Hstep. rewrite decide_True in Hstep by done.
  injection Hstep as <-.
  exists o, (Z.of_N (random_below h t (f_name f) 65536 + 0)).
  split; [done|]. split; [rewrite Hafter; apply lookup_insert_eq|].
  unfold random_below.
  pose proof (N.mod_lt (entropy h t (f_name f) 0) 65536 ltac:(done)) as Hlt.
  set (a := (entropy h t (f_name f) 0 mod 65536)%N) in *. clearbody a. clear -Hlt. lia.
Qed.

(** X4.  A field with no [from] and a non-empty [values] list gets one of
    the listed values, whatever its type. *)
Theorem make_test_object_values_field vs :
  from_of f = None → values_of f = Some vs →
  ∃ o v, make_test_object h roots ls t def = Ok o ∧
         instance o !! f_name f = Some v ∧ v ∈ vs.
Proof using Hdef Hfield Hnames Hroot.
  intros Hfrom Hvals.
  destruct (make_test_object_around_field h roots ls t def x f Hdef Hfield Hnames Hroot)
    as (o & o1 & o2 & post & Ho & Hstep & _ & Hafter & _).
  unfold make_field in Hstep. rewrite Hfrom, Hvals in Hstep.
  injection Hstep as <-.
  assert (Hne : length vs ≠ 0).
  { unfold values_of in Hvals. destruct (f_values f) as [[|v0 vs0]|]; try done.
    by injection Hvals as <-. }
  destruct (lookup_lt_is_Some_2 vs
              (N.to_nat (random_below h t (f_name f) (N.of_nat (length vs)) + 0)))
    as [v Hv].
  { unfold random_below.
    pose proof (N.mod_lt (entropy h t (f_name f) 0) (N.of_nat (length vs))
                  ltac:(clear -Hne; lia)) as Hlt.
    set (a := (entropy h t (f_name f) 0 mod N.of_nat (length vs))%N) in *.
    clearbody a. clear -Hlt. lia. }
  exists o, v. split; [done|].
  split; [|by eapply list_elem_of_lookup_2].
  rewrite Hafter. simpl. rewrite lookup_insert_eq. by rewrite Hv.
Qed.

(** X5.  A field whose [from] names another resource never gets a value
    from the factory: its key is absent and exactly one dependency
    [{field, from}] is recorded for it, whether or not the referenced
    definition already has an instance. *)
Theorem make_test_object_reference_field src :
  from_of f = Some src → src ≠ parent_ref →
  ∃ o, make_test_object h roots ls t def = Ok o ∧
       instance o !! f_name f = None ∧
       filter (λ y, field y = f_name f) (deps o) = [{| field := f_name f; from := src |}].
Proof using Hdef Hfield Hnames Hroot.
  intros Hfrom Hsrc.
  destruct (make_test_object_around_field h roots ls t def x f Hdef Hfield Hnames Hroot)
    as (o & o1 & o2 & post & Ho & Hstep & Hbefore & Hafter & Hdeps & Hpre & Hpost).
  unfold make_field in Hstep. rewrite Hfrom, decide_False in Hstep by done.
  injection Hstep as <-.
  exists o. split; [done|]. split; [by rewrite Hafter|].
  rewrite Hdeps. simpl. rewrite !filter_app.
  rewrite (filter_none _ (deps o1)) by done.
  rewrite (filter_none _ post) by done.
  rewrite app_nil_r. simpl. by rewrite filter_singleton_True.
Qed.

(** X6.  A [<parent>] field takes the id of the parent's live instance
    and records no dependency; only when the parent has no instance is a
    dependency on the parent's name recorded instead. *)
Theorem make_test_object_parent_field p pd :
  from_of f = Some parent_ref → parent_of def = Some p → def_at roots p = Some pd →
  ∃ o, make_test_object h roots ls t def = Ok o ∧
       match ls !! p with
       | Some l =>
           instance o !! f_name f = Some (last_id l) ∧
           ∀ y, y ∈ deps o → field y ≠ f_name f
       | None =>
           instance o !! f_name f = None ∧
           {| field := f_name f; from := name pd |} ∈ deps o
       end.
Proof using Hdef Hfield Hnames Hroot.
  intros Hfrom Hp Hpd.
  destruct (make_test_object_around_field h roots ls t def x f Hdef Hfield Hnames Hroot)
    as (o & o1 & o2 & post & Ho & Hstep & Hbefore & Hafter & Hdeps & Hpre & Hpost).
  unfold make_field in Hstep. rewrite Hfrom, decide_True, Hp in Hstep by done.
  exists o. split; [done|].
  destruct (ls !! p) as [l|].
  - injection Hstep as <-. split; [rewrite Hafter; apply lookup_insert_eq|].
    intros y Hy. rewrite Hdeps in Hy. simpl in Hy.
    apply elem_of_app in Hy as [Hy|Hy]; [by apply Hpre | by apply Hpost].
  - rewrite Hpd in Hstep. injection Hstep as <-. split; [by rewrite Hafter|].
    rewrite Hdeps. simpl. apply elem_of_app. left. apply elem_of_app. right. left.
Qed.

End make_test_object_fields.

Lemma make_test_object_string_field_witness :
  ∃ o str, make_test_object Shop.host Shop.roots Shop.shop_live 0 [0; 0] = Ok o ∧
           instance o !! "label" = Some (VString str) ∧ String.length str = 8.
Proof.
  destruct (make_test_object_string_field Shop.host Shop.roots Shop.shop_live 0 [0; 0]
              Shop.items Shop.label)
    as (o & str & Ho & Hval & Hlen & _).
  - reflexivity.
  - by_evaluation.
  - by_evaluation.
  - intros Hp. discriminate Hp.
  - reflexivity.
  - reflexivity.
  - reflexivity.
  - exists o, str. repeat split; assumption.
Defined.

Lemma make_test_object_number_field_witness :
  ∃ o n, make_test_object Shop.host Shop.roots Shop.shop_live 0 [0; 0] = Ok o ∧
         instance o !! "price" = Some (VNumber n) ∧ (0 ≤ n < 65536)%Z.
Proof.
  apply (make_test_object_number_field Shop.host Shop.roots Shop.shop_live 0 [0; 0]
           Shop.items Shop.price).
  - reflexivity.
  - by_evaluation.
  - by_evaluation.
  - intros Hp. discriminate Hp.
  - reflexivity.
  - reflexivity.
  - reflexivity.
Defined.

Lemma make_test_object_values_field_witness :
  ∃ o v, make_test_object Shop.host Shop.roots Shop.shop_live 0 [0; 0] = Ok o ∧
         instance o !! "kind" = Some v ∧ v ∈ [VString "new"; VString "used"].
Proof.
  apply (make_test_object_values_field Shop.host Shop.roots Shop.shop_live 0 [0; 0]
           Shop.items Shop.kind).
  - reflexivity.
  - by_evaluation.
  - by_evaluation.
  - intros Hp. discriminate Hp.
  - reflexivity.
  - reflexivity.
Defined.

Lemma make_test_object_reference_field_witness :
  ∃ o, make_test_object Shop.host Shop.roots Shop.shop_live 0 [0; 0] = Ok o ∧
       instance o !! "owner_id" = None ∧
       filter (λ y, field y = "owner_id") (deps o) =
         [{| field := "owner_id"; from := "owners" |}].
Proof.
  apply (make_test_object_reference_field Shop.host Shop.roots Shop.shop_live 0 [0; 0]
           Shop.items Shop.owner_id).
  - reflexivity.
  - by_evaluation.
  - by_evaluation.
  - intros Hp. discriminate Hp.
  - reflexivity.
  - by_evaluation.
Defined.

Lemma make_test_object_parent_field_witness :
  ∃ o, make_test_object Shop.host Shop.roots Shop.shop_live 0 [0; 0] = Ok o ∧
       instance o !! "shop_id" = Some (VNumber 5) ∧
       ∀ y, y ∈ deps o → field y ≠ "shop_id".
Proof.
  apply (make_test_object_parent_field Shop.host Shop.roots Shop.shop_live 0 [0; 0]
           Shop.items Shop.shop_id ltac:(reflexivity) ltac:(by_evaluation)
           ltac:(by_evaluation) ltac:(intros Hp; discriminate Hp) [0] Shop.shops).
  - reflexivity.
  - reflexivity.
  - reflexivity.
Defined.

(** X7.  The synthesized object has no key and no dependency other than
    for the declared fields, and a dependency only for a field that has a
    [from]. *)
Theorem make_test_object_only_declared_fields h roots ls t def x o :
  def_at roots def = Some x →
  make_test_object h roots ls t def = Ok o →
  (∀ k, k ∉ (f_name <$> fields x) → instance o !! k = None) ∧
  (∀ y, y ∈ deps o → ∃ g, g ∈ fields x ∧ field y = f_name g ∧ is_Some (from_of g)).
Proof.
  intros Hx Ho. unfold make_test_object in Ho. rewrite Hx in Ho. split.
  - intros k Hk. by rewrite (make_fields_other _ _ _ _ _ _ _ _ _ Ho Hk).
  - destruct (make_fields_deps _ _ _ _ _ _ _ _ Ho) as (more & Hmore & Hfrom).
    simpl in Hmore. rewrite Hmore. exact Hfrom.
Qed.

Lemma make_test_object_only_declared_fields_witness :
  ∃ o, make_test_object Shop.host Shop.roots Shop.shop_live 0 [0; 0] = Ok o ∧
       instance o !! "id" = None.
Proof.
  eexists. split; [vm_compute; reflexivity|].
  refine (proj1 (make_test_object_only_declared_fields
                   Shop.host Shop.roots Shop.shop_live 0 [0; 0] Shop.items _ _ _) "id" _).
  - reflexivity.
  - vm_compute. reflexivity.
  - by_evaluation.
Defined.

Lemma make_field_throws h roots ls t def o f e :
  make_field h roots ls t def o f = Throw e →
  from_of f = Some parent_ref ∧ ∃ what, e = TypeError what.
Proof.
  unfold make_field. intros H.
  destruct (from_of f) as [src|].
  - case_decide as Hsrc; [subst src|done].
    split; [done|].
    destruct (parent_of def) as [p|]; [|injection H as <-; eauto].
    destruct (ls !! p); [done|].
    destruct (def_at roots p); [done|]. injection H as <-. eauto.
  - destruct (values_of f); [done|].
    destruct (synthesize_shape h t f o) as (o1 & H1 & _). congruence.
Qed.

Lemma make_field_never_out_of_fuel h roots ls t def o f :
  make_field h roots ls t def o f ≠ OutOfFuel.
Proof.
  unfold make_field.
  destruct (from_of f) as [src|].
  - case_decide; [|done]. destruct (parent_of def) as [p|]; [|done].
    destruct (ls !! p); [done|]. by destruct (def_at roots p).
  - destruct (values_of f); [done|].
    destruct (synthesize_shape h t f o) as (o1 & H1 & _). congruence.
Qed.

Lemma make_test_object_root_throws h roots ls t def x f :
  def_at roots def = Some x → parent_of def = None →
  f ∈ fields x → from_of f = Some parent_ref →
  ∃ what, make_test_object h roots ls t def = Throw (TypeError what).
Proof.
  intros Hx Hp Hf Hfrom. unfold make_test_object. rewrite Hx.
  generalize {| instance := ∅; deps := [] |}.
  induction (fields x) as [|g gs IH]; intros o; [by apply elem_of_nil in Hf|].
  simpl. destruct (make_field h roots ls t def o g) as [o1|e|] eqn:E.
  - apply elem_of_cons in Hf as [->|Hf]; [|by apply IH].
    unfold make_field in E. rewrite Hfrom, decide_True, Hp in E by done. done.
  - destruct (make_field_throws _ _ _ _ _ _ _ _ E) as (_ & what & ->). eauto.
  - by destruct (make_field_never_out_of_fuel h roots ls t def o g).
Qed.

(** X8.  A root definition has no parent: if one of its fields is a
    [<parent>] reference, [make_test_object] throws a TypeError, whatever
    the other fields are and whatever is cached. *)
Theorem make_test_object_parent_ref_on_root h roots ls t def x f :
  def_at roots def = Some x → parent_of def = None →
  f ∈ fields x → from_of f = Some parent_ref →
  ∃ what, make_test_object h roots ls t def = Throw (TypeError what).
Proof. apply make_test_object_root_throws. Qed.

Lemma make_test_object_parent_ref_on_root_witness :
  ∃ what,
    make_test_object Shop.host [Shop.items] ∅ 0 [0] = Throw (TypeError what).
Proof.
  apply (make_test_object_parent_ref_on_root Shop.host [Shop.items] ∅ 0 [0]
           Shop.items Shop.shop_id).
  - reflexivity.
  - reflexivity.
  - by_evaluation.
  - reflexivity.
Defined.

(** ** find_resource_def *)

Lemma first_named_spec segment defs k i x :
  first_named segment defs k = Some (i, x) →
  (k ≤ i)%nat ∧ defs !! (i - k) = Some x ∧ name x = segment.
Proof.
  revert k. induction defs as [|y rest IH]; intros k H; simpl in H; [done|].
  case_decide as Hn.
  - injection H as <- <-. rewrite Nat.sub_diag. by repeat split.
  - destruct (IH _ H) as (Hle & Hlook & Hname).
    split; [lia|]. split; [|done].
    replace (i - k) with (S (i - S k)) by lia. done.
Qed.

Lemma def_at_cons roots i q :
  q ≠ [] → def_at roots (i :: q) = roots !! i ≫= λ x, def_at (children x) q.
Proof. intros Hq. simpl. destruct (roots !! i); [|done]. by destruct q. Qed.

Lemma def_at_snoc roots at_ defs i :
  level roots at_ = Some defs → def_at roots (at_ ++ [i]) = defs !! i.
Proof.
  revert roots. induction at_ as [|j q IH]; intros roots Hl.
  - injection Hl as <-. simpl. by destruct (roots !! i).
  - change ((j :: q) ++ [i]) with (j :: (q ++ [i])).
    rewrite def_at_cons by (by destruct q).
    unfold level in Hl. destruct q as [|k q'].
    + simpl in Hl. destruct (roots !! j) as [y|]; [|done]. simpl in *.
      injection Hl as <-. by destruct (children y !! i).
    + rewrite def_at_cons in Hl by done.
      destruct (roots !! j) as [y|]; [|done]. simpl in *. by apply IH.
Qed.

Lemma find_loop_sound roots segments :
  ∀ defs at_ current d,
    level roots at_ = Some defs →
    (∀ c, current = Some c → ∃ x, def_at roots c = Some x) →
    find_loop segments defs at_ current = Some d →
    ∃ x, def_at roots d = Some x ∧ (current = Some d ∨ name x ∈ segments).
Proof.
  induction segments as [|segment rest IH]; intros defs at_ current d Hl Hcur H; simpl in H.
  - subst current. destruct (Hcur d eq_refl) as [x Hx]. eauto.
  - destruct (first_named segment defs 0) as [[i y]|] eqn:E.
    + destruct (first_named_spec _ _ _ _ _ E) as (_ & Hi & Hname).
      rewrite Nat.sub_0_r in Hi.
      assert (Hat : def_at roots (at_ ++ [i]) = Some y) by by rewrite (def_at_snoc _ _ defs).
      destruct (IH (children y) (at_ ++ [i]) (Some (at_ ++ [i])) d) as (x & Hx & Hor);
        [..|done|].
      * unfold level. destruct (at_ ++ [i]) eqn:Eat; [by destruct at_|]. by rewrite Hat.
      * intros c [= <-]. eauto.
      * exists x. split; [done|]. right.
        destruct Hor as [[= <-]|Hin]; [|by right].
        rewrite Hat in Hx. injection Hx as <-. rewrite Hname. left.
    + destruct (IH defs at_ current d Hl Hcur H) as (x & Hx & Hor).
      exists x. split; [done|]. destruct Hor as [?|?]; [by left|right; by right].
Qed.

(** X9.  Whatever the path, a definition returned by [find_resource_def]
    is a definition of the tree, and its name is one of the segments of
    the path. *)
Theorem find_resource_def_sound roots path d :
  find_resource_def roots path = Some d →
  ∃ x, def_at roots d = Some x ∧ name x ∈ split_on "/" path.
Proof.
  intros H. destruct (find_loop_sound roots _ roots [] None d eq_refl ltac:(done) H)
    as (x & Hx & Hor).
  exists x. split; [done|]. by destruct Hor.
Qed.

Lemma find_resource_def_sound_witness :
  ∃ x, def_at Shop.roots [0; 0] = Some x ∧ name x ∈ split_on "/" "shops/items".
Proof.
  apply (find_resource_def_sound Shop.roots "shops/items" [0; 0]). reflexivity.
Defined.

Lemma split_on_plain s : ¬ has_slash s → split_on "/" s = [s].
Proof.
  unfold has_slash. induction s as [|c s IH]; intros Hs; simpl in *; [done|].
  rewrite decide_False by (intros ->; apply Hs; left).
  rewrite IH; [done|]. intros Hin. apply Hs. by right.
Qed.

Lemma split_on_append a s :
  ¬ has_slash a → split_on "/" (a +:+ "/" +:+ s) = a :: split_on "/" s.
Proof.
  unfold has_slash. induction a as [|c a IH]; intros Ha; simpl in *; [done|].
  rewrite decide_False by (intros ->; apply Ha; left).
  rewrite IH; [done|]. intros Hin. apply Ha. by right.
Qed.

Lemma split_on_path_of names :
  names ≠ [] → Forall (λ n, ¬ has_slash n) names → split_on "/" (path_of names) = names.
Proof.
  induction names as [|n [|m rest] IH]; intros Hne Hall; [done|..].
  - simpl. apply split_on_plain. by apply Forall_inv in Hall.
  - change (path_of (n :: m :: rest)) with (n +:+ "/" +:+ path_of (m :: rest)).
    apply Forall_cons in Hall as [Hn Hrest].
    rewrite split_on_append by done. f_equal. by apply IH.
Qed.

Lemma first_along_names defs d names :
  first_along defs d → names_along defs d = Some names →
  Forall (λ n, ¬ has_slash n) names ∧ length names = length d.
Proof.
  revert defs names. induction d as [|i q IH]; intros defs names Hf Hn; simpl in *.
  - injection Hn as <-. by split.
  - destruct (defs !! i) as [x|]; [|done]. destruct Hf as (_ & Hslash & Hrest).
    destruct (names_along (children x) q) as [ns|] eqn:E; [|done].
    injection Hn as <-. destruct (IH _ _ Hrest E) as [Hall Hlen].
    split; [by constructor|simpl; by rewrite Hlen].
Qed.

Lemma find_loop_along d :
  ∀ defs at_ current names,
    d ≠ [] → first_along defs d → names_along defs d = Some names →
    find_loop names defs at_ current = Some (at_ ++ d).
Proof.
  induction d as [|i q IH]; intros defs at_ current names Hne Hf Hn; [done|].
  simpl in Hf, Hn. destruct (defs !! i) as [x|]; [|done].
  destruct Hf as (Hfirst & _ & Hrest).
  destruct (names_along (children x) q) as [ns|] eqn:E; [|done].
  injection Hn as <-. simpl. rewrite Hfirst.
  destruct q as [|j q'].
  - simpl in E. by injection E as <-.
  - rewrite (IH (children x) (at_ ++ [i]) (Some (at_ ++ [i])) ns) by done.
    by rewrite <- app_assoc.
Qed.

(** X10.  Looking up the path made of the names from the root down to a
    definition gives back that definition, provided no name on the way
    contains a slash and each definition is the first of its siblings
    with its name. *)
Theorem find_resource_def_finds_own_path roots d names :
  d ≠ [] → first_along roots d → names_along roots d = Some names →
  find_resource_def roots (path_of names) = Some d.
Proof.
  intros Hne Hf Hn. unfold find_resource_def.
  destruct (first_along_names _ _ _ Hf Hn) as [Hall Hlen].
  rewrite split_on_path_of; [by apply (find_loop_along d roots [])|..|done].
  intros ->. by destruct d.
Qed.

Lemma find_resource_def_finds_own_path_witness :
  find_resource_def Fixture.roots_deep "as/bs/cs" = Some [0; 0; 0].
Proof.
  apply (find_resource_def_finds_own_path Fixture.roots_deep [0; 0; 0] ["as"; "bs"; "cs"]).
  - by_evaluation.
  - simpl. repeat split; try reflexivity; by_evaluation.
  - reflexivity.
Defined.

Lemma find_loop_keeps_match segments :
  ∀ defs at_ c, is_Some (find_loop segments defs at_ (Some c)).
Proof.
  induction segments as [|segment rest IH]; intros defs at_ c; simpl; [eauto|].
  destruct (first_named segment defs 0) as [[i y]|]; apply IH.
Qed.

(** X11.  [find_resource_def] answers null exactly when no segment of the
    path is the name of a root definition: once some segment has matched,
    segments that match nothing are passed over and a definition is
    returned. *)
Theorem find_resource_def_none_iff roots path :
  find_resource_def roots path = None ↔
  ∀ segment, segment ∈ split_on "/" path → first_named segment roots 0 = None.
Proof.
  unfold find_resource_def. generalize (split_on "/" path). intros segments.
  induction segments as [|segment rest IH]; simpl.
  - split; [|done]. intros _ segment Hin. by apply elem_of_nil in Hin.
  - destruct (first_named segment roots 0) as [[i y]|] eqn:E.
    + split.
      * intros H. destruct (find_loop_keeps_match rest (children y) [i] [i]) as [d Hd].
        assert (Some d = None) as Habs by (etrans; [symmetry; exact Hd | exact H]).
        discriminate Habs.
      * intros H. specialize (H segment ltac:(left)). rewrite E in H. discriminate H.
    + rewrite IH. split.
      * intros H s Hs. apply elem_of_cons in Hs as [->|Hs]; [done|by apply H].
      * intros H s Hs. apply H. by right.
Qed.

(** ** get_api_for_def *)

Lemma parent_of_length d p : parent_of d = Some p → S (length p) = length d ∧ p ≠ [].
Proof.
  destruct d as [|i [|j q]]; [done..|]. unfold parent_of. intros H.
  apply (inj Some) in H. subst p.
  split; [by apply (removelast_shorter (i :: j :: q))|]. by destruct q.
Qed.

(** The first loop collects one name per level, the definition's own
    name last. *)
Lemma chain_up_names roots n :
  ∀ current x resources,
    def_at roots current = Some x → length current = n →
    ∃ above, chain_up roots n current resources = Some (above ++ name x :: resources) ∧
             S (length above) = n.
Proof.
  induction n as [|n IH]; intros current x resources Hx Hlen.
  - destruct current; [done|simpl in Hlen; lia].
  - simpl. rewrite Hx. destruct (parent_of current) as [p|] eqn:Hp.
    + destruct (parent_of_length _ _ Hp) as [Hlp _].
      destruct (def_at_parent _ _ _ _ Hx Hp) as [y Hy].
      destruct (IH p y (name x :: resources) Hy ltac:(lia)) as (above & -> & Hl).
      exists (above ++ [name y]). rewrite <- app_assoc. split; [done|].
      rewrite length_app. simpl. lia.
    + exists []. split; [done|].
      destruct current as [|i [|j q]]; simpl in *; [lia|lia|done].
Qed.

Lemma bind_loop_with_parent h ls def i resources :
  parent_last_id ls def = Ok i →
  ∀ api, ∃ api', bind_loop h ls def resources api = Ok (api ++ api') ∧
                 length api' = length resources.
Proof.
  intros Hid. induction resources as [|r rest IH]; intros api.
  - exists []. by rewrite app_nil_r.
  - cbn [bind_loop]. rewrite Hid.
    destruct (Nat.even (length (r :: rest))).
    + destruct (IH (api ++ [(singular h r, [i])])) as (api' & -> & Hl).
      exists ((singular h r, [i]) :: api'). rewrite <- app_assoc. split; [done|].
      simpl. by rewrite Hl.
    + destruct (IH (api ++ [(r, [])])) as (api' & -> & Hl).
      exists ((r, []) :: api'). rewrite <- app_assoc. split; [done|].
      simpl. by rewrite Hl.
Qed.

Lemma bind_loop_without_parent h ls def e resources :
  parent_last_id ls def = Throw e → (2 ≤ length resources)%nat →
  ∀ api, bind_loop h ls def resources api = Throw e.
Proof.
  intros Hid. remember (length resources) as n eqn:Hn. revert resources Hn.
  induction n as [n IH] using lt_wf_ind. intros resources Hn Hle api.
  destruct resources as [|r rest]; [simpl in Hn; lia|].
  cbn [bind_loop]. rewrite Hid.
  destruct (Nat.even (length (r :: rest))) eqn:Heven; [done|].
  apply (IH (length rest)); [simpl in Hn; lia|done|].
  simpl in Hn. destruct rest as [|r2 [|r3 rest']]; simpl in *; [lia| |lia].
  subst n. done.
Qed.

(** X12.  For a definition of the tree, [get_api_for_def] succeeds
    exactly when the definition is a root or its parent has a live
    instance; in the remaining case it throws a TypeError. *)
Theorem get_api_for_def_succeeds_iff h roots ls def x :
  def_at roots def = Some x →
  match get_api_for_def h roots ls def with
  | Ok api =>
      length api = length def ∧
      (parent_of def = None ∨ ∃ p, parent_of def = Some p ∧ is_Some (ls !! p))
  | Throw e =>
      (∃ what, e = TypeError what) ∧
      ∃ p, parent_of def = Some p ∧ ls !! p = None
  | OutOfFuel => False
  end.
Proof.
  intros Hx. unfold get_api_for_def.
  destruct (chain_up_names roots (length def) def x [] Hx eq_refl) as (above & -> & Hlen).
  destruct (parent_of def) as [p|] eqn:Hp.
  - destruct (parent_of_length _ _ Hp) as [Hlp Hne].
    destruct (ls !! p) as [l|] eqn:Hl.
    + destruct (bind_loop_with_parent h ls def (last_id l) (above ++ [name x])
                  ltac:(unfold parent_last_id; by rewrite Hp, Hl) []) as (api & -> & Hapi).
      simpl. split; [|right; eauto].
      rewrite Hapi, length_app. simpl. lia.
    + rewrite (bind_loop_without_parent h ls def (TypeError "def.parent.last is null")).
      * split; eauto.
      * unfold parent_last_id. by rewrite Hp, Hl.
      * rewrite length_app. simpl.
        assert (length p ≠ 0) by (by destruct p). lia.
  - assert (above = []) as ->.
    { destruct def as [|i [|j q]]; simpl in *; [lia| |done].
      by destruct above. }
    simpl. split; [|by left].
    destruct def as [|i [|j q]]; simpl in *; [lia|done|done].
Qed.

Lemma get_api_for_def_succeeds_iff_witness :
  match get_api_for_def Shop.host Shop.roots ∅ [0; 0] with
  | Throw (TypeError _) => True
  | _ => False
  end.
Proof.
  pose proof (get_api_for_def_succeeds_iff Shop.host Shop.roots ∅ [0; 0] Shop.items
                ltac:(reflexivity)) as H.
  destruct (get_api_for_def Shop.host Shop.roots ∅ [0; 0]) as [api|e|].
  - destruct H as [_ [H|(p & H & [l Hl])]]; [discriminate H|].
    injection H as <-. discriminate Hl.
  - by destruct H as [[what ->] _].
  - done.
Defined.

Lemma bind_loop_prefix h ls def i front :
  parent_last_id ls def = Ok i →
  ∀ rest api, ∃ api1, bind_loop h ls def (front ++ rest) api =
                      bind_loop h ls def rest (api ++ api1).
Proof.
  intros Hid. induction front as [|r front IH]; intros rest api.
  - exists []. by rewrite app_nil_r.
  - change ((r :: front) ++ rest) with (r :: (front ++ rest)).
    cbn [bind_loop]. rewrite Hid.
    destruct (Nat.even (length (r :: front ++ rest))).
    + destruct (IH rest (api ++ [(singular h r, [i])])) as (api1 & ->).
      exists ((singular h r, [i]) :: api1). by rewrite <- app_assoc.
    + destruct (IH rest (api ++ [(r, [])])) as (api1 & ->).
      exists ((r, []) :: api1). by rewrite <- app_assoc.
Qed.

(** X13.  When [get_api_for_def] succeeds on a definition of the tree,
    the handle ends by entering the definition's own collection without
    arguments; for a nested definition the invocation just before is the
    singular form of the parent's name applied to the id of the parent's
    live instance.  A root is bound by its collection alone. *)
Theorem get_api_for_def_tail h roots ls def x api :
  def_at roots def = Some x →
  get_api_for_def h roots ls def = Ok api →
  match parent_of def with
  | None => api = [(name x, [])]
  | Some p =>
      ∃ pd l front,
        def_at roots p = Some pd ∧ ls !! p = Some l ∧
        api = front ++ [(singular h (name pd), [last_id l]); (name x, [])]
  end.
Proof.
  intros Hx Hapi. unfold get_api_for_def in Hapi.
  destruct def as [|i q]; [done|].
  cbn [length chain_up] in Hapi. rewrite Hx in Hapi.
  destruct (parent_of (i :: q)) as [p|] eqn:Hp.
  - destruct (parent_of_length _ _ Hp) as [Hlp _].
    destruct (def_at_parent _ _ _ _ Hx Hp) as [pd Hpd].
    simpl in Hlp. injection Hlp as Hlp.
    destruct (chain_up_names roots (length q) p pd [name x] Hpd Hlp) as (above & Hc & _).
    rewrite Hc in Hapi.
    destruct (ls !! p) as [l|] eqn:Hl.
    + exists pd, l.
      assert (Hid : parent_last_id ls (i :: q) = Ok (last_id l))
        by (unfold parent_last_id; by rewrite Hp, Hl).
      destruct (bind_loop_prefix h ls (i :: q) (last_id l) above Hid
                  [name pd; name x] []) as (front & Hfront).
      rewrite Hfront in Hapi. cbn [bind_loop length Nat.even] in Hapi.
      rewrite Hid in Hapi. injection Hapi as <-.
      exists front. repeat split; try done. simpl. by rewrite <- app_assoc.
    + rewrite (bind_loop_without_parent h ls (i :: q)
                 (TypeError "def.parent.last is null")) in Hapi; [done|..].
      * unfold parent_last_id. by rewrite Hp, Hl.
      * rewrite length_app. simpl. lia.
  - simpl in Hapi. by injection Hapi as <-.
Qed.

Lemma get_api_for_def_tail_witness :
  ∃ front,
    get_api_for_def Shop.host Fixture.roots_deep Fixture.deep_lasts [0; 0; 0; 0] =
    Ok (front ++ [("c", [VNumber 3]); ("ds", [])]).
Proof.
  destruct (get_api_for_def_tail Shop.host Fixture.roots_deep Fixture.deep_lasts [0; 0; 0; 0]
              {| name := "ds"; fields := []; children := [] |}
              [("a", [VNumber 3]); ("bs", []); ("c", [VNumber 3]); ("ds", [])])
    as (pd & l & front & Hpd & Hl & Hapi).
  - reflexivity.
  - vm_compute. reflexivity.
  - exists [("a", [VNumber 3]); ("bs", [])]. vm_compute. reflexivity.
Defined.

(** ** What creation may and may not do *)

(** X14.  Whatever its outcome, [create_resource_from_def] never clears
    or replaces a cached instance, never touches the orphan queue, and
    every remote call it makes is a create call for a definition that had
    no live instance when the call began. *)
Theorem create_resource_from_def_only_adds h roots n def s :
  let s' := (create_resource_from_def h roots n def s).2 in
  lasts s ⊆ lasts s' ∧ cleanups s' = cleanups s ∧
  ∃ extra, calls s' = calls s ++ extra ∧
           Forall (λ c, lasts s !! target c = None ∧ is_create (op c)) extra.
Proof.
  simpl. destruct (create_resource_from_def h roots n def s) as [out s'] eqn:E.
  exact (create_resource_from_def_grows h roots n def s out s' E).
Qed.

Lemma creates_exactly_same {A} (c : M A) good s :
  (∀ out s', c s = (out, s') → lasts s' = lasts s ∧ calls s' = calls s) →
  creates_exactly c good s.
Proof.
  intros H a s' Hrun _. destruct (H _ _ Hrun) as [Hl Hc].
  exists []. rewrite Hl, Hc, app_nil_r. split; [done|]. split; [constructor|].
  intros d. split.
  - intros Hd. by apply elem_of_nil in Hd.
  - intros [Hnone [l Hsome]]. congruence.
Qed.

Lemma creates_exactly_bind {A B} (c : M A) (k : A → M B) good1 good2 s :
  grows_from c s → creates_exactly c good1 s →
  (∀ a s1, c s = (Ok a, s1) →
           grows_from (k a) s1 ∧
           ((good1 a ∧ creates_exactly (k a) good2 s1) ∨
            (∀ b s2, k a s1 ≠ (Ok b, s2)))) →
  creates_exactly (bind c k) good2 s.
Proof.
  intros Hgc Hc Hk b s' Hrun Hgood. unfold bind in Hrun.
  destruct (c s) as [[a|e|] s1] eqn:E; try done.
  destruct (Hk a s1 eq_refl) as [Hgk [[Hg1 Hek]|Hnever]]; [|by destruct (Hnever b s')].
  destruct (Hgc _ _ E) as (Hsub1 & _).
  destruct (Hgk _ _ Hrun) as (Hsub2 & _).
  destruct (Hc a s1 E Hg1) as (extra1 & Hc1 & Hnd1 & Hiff1).
  destruct (Hek b s' Hrun Hgood) as (extra2 & Hc2 & Hnd2 & Hiff2).
  exists (extra1 ++ extra2). split; [by rewrite Hc2, Hc1, app_assoc|].
  rewrite fmap_app. split.
  - apply NoDup_app. repeat split; try done.
    intros d Hd1 Hd2. apply Hiff1 in Hd1 as [_ [l Hl]]. apply Hiff2 in Hd2 as [Hn _].
    congruence.
  - intros d. rewrite elem_of_app, Hiff1, Hiff2. split.
    + intros [[Hn [l Hl]]|[Hn Hs]].
      * split; [done|]. exists l. by eapply lookup_weaken.
      * split; [by eapply lookup_weaken_None|done].
    + intros [Hn Hs]. destruct (lasts s1 !! d) eqn:E1; [left|right]; eauto.
Qed.

Ltac same_calls :=
  apply creates_exactly_same; intros ? ? Hsame; cbv in Hsame;
  by injection Hsame as <- <-.

Lemma resolve_deps_creates_exactly create roots ds :
  (∀ d, grows (create d)) →
  (∀ d s, creates_exactly (create d) is_Some s) →
  ∀ inst s, creates_exactly (resolve_deps create roots ds inst) (λ _, True) s.
Proof.
  intros Hgrow Hexact. induction ds as [|x rest IH]; intros inst s; simpl.
  - same_calls.
  - destruct (find_resource_def roots (from x)) as [dep_def|]; [|same_calls].
    eapply creates_exactly_bind; [apply Hgrow|apply Hexact|].
    intros res s1 _.
    destruct res as [[rsp [body|]]|].
    + split; [by apply resolve_deps_grows|]. left. split; [eauto|apply IH].
    + split; [same_state|]. right. intros b s2 Hrun. discriminate Hrun.
    + split; [same_state|]. right. intros b s2 Hrun. discriminate Hrun.
Qed.

Lemma create_resource_from_def_creates_exactly h roots n :
  ∀ def s, creates_exactly (create_resource_from_def h roots n def) is_Some s.
Proof.
  induction n as [|n IH]; intros def s.
  { intros a s' Hrun. discriminate Hrun. }
  simpl. eapply (creates_exactly_bind _ _ (λ _, True)).
  - by apply synthesize_and_resolve_grows, create_resource_from_def_grows.
  - unfold synthesize_and_resolve.
    eapply (creates_exactly_bind _ _ (λ _, True)); [same_state|same_calls|].
    intros t s1 _. split.
    { apply grows_bind; [same_state|]. intros ls s2 _.
      apply grows_bind; [same_state|]. intros obj s3 _.
      by apply resolve_deps_grows, create_resource_from_def_grows. }
    left. split; [done|].
    eapply (creates_exactly_bind _ _ (λ _, True)); [same_state|same_calls|].
    intros ls s2 _. split.
    { apply grows_bind; [same_state|]. intros obj s3 _.
      by apply resolve_deps_grows, create_resource_from_def_grows. }
    left. split; [done|].
    eapply (creates_exactly_bind _ _ (λ _, True)); [same_state|same_calls|].
    intros obj s3 _. split.
    { by apply resolve_deps_grows, create_resource_from_def_grows. }
    left. split; [done|].
    apply resolve_deps_creates_exactly; [apply create_resource_from_def_grows|apply IH].
  - intros inst s1 _. split.
    { intros out s' Hrun.
      unfold bind, get_last, get_lasts, lift, call_remote in Hrun.
      destruct (lasts s1 !! def) as [l|] eqn:Hl.
      { injection Hrun as <- <-. repeat split; [done|]. exists []. by rewrite app_nil_r. }
      destruct (get_api_for_def h roots (lasts s1) def) as [api| |].
      2,3: injection Hrun as <- <-; repeat split; [done|]; exists []; by rewrite app_nil_r.
      destruct (remote h _ api (Create inst)) as [[rsp [body|]]|];
        cbv [set_last ret throw resource] in Hrun; injection Hrun as <- <-; simpl;
        (split; [first [done | by apply insert_subseteq]|]); (split; [done|]);
        eexists; (split; [reflexivity|]); by repeat constructor. }
    left. split; [done|].
    intros a s' Hrun Hgood. unfold bind, get_last, get_lasts, lift, call_remote in Hrun.
    destruct (lasts s1 !! def) as [l|] eqn:Hl.
    { injection Hrun as <- <-. exists []. rewrite app_nil_r.
      split; [done|]. split; [constructor|]. intros d. split.
      - intros Hd. by apply elem_of_nil in Hd.
      - intros [Hnone [l' Hsome]]. congruence. }
    destruct (get_api_for_def h roots (lasts s1) def) as [api| |]; try done.
    destruct (remote h _ api (Create inst)) as [[rsp [body|]]|];
      cbv [set_last ret throw resource] in Hrun; try done.
    + injection Hrun as <- <-. simpl. eexists. split; [reflexivity|].
      simpl. split; [apply NoDup_singleton|].
      intros d. rewrite list_elem_of_singleton. split.
      * intros ->. split; [done|]. rewrite lookup_insert_eq. eauto.
      * intros [Hnone [l' Hsome]]. destruct (decide (d = def)) as [|Hne]; [done|].
        rewrite lookup_insert_ne in Hsome by done. congruence.
    + injection Hrun as <- <-. by destruct Hgood.
Qed.

(** X15.  When [create_resource_from_def] returns a response, the remote
    calls it made are create calls for pairwise distinct definitions, and
    these are exactly the definitions that had no cached instance before
    the call and have one after it: one remote creation per new instance,
    none for a definition already live. *)
Theorem create_resource_from_def_one_call_per_instance h roots n def s r s1 :
  create_resource_from_def h roots n def s = (Ok (Some r), s1) →
  ∃ extra, calls s1 = calls s ++ extra ∧ NoDup (target <$> extra) ∧
           Forall (λ c, is_create (op c)) extra ∧
           ∀ d, d ∈ (target <$> extra) ↔ lasts s !! d = None ∧ is_Some (lasts s1 !! d).
Proof.
  intros Hrun.
  destruct (create_resource_from_def_creates_exactly h roots n def s _ _ Hrun ltac:(eauto))
    as (extra & Hcalls & Hnd & Hiff).
  destruct (create_resource_from_def_grows h roots n def s _ _ Hrun)
    as (_ & _ & extra' & Hcalls' & Hall).
  assert (extra' = extra) as -> by (rewrite Hcalls in Hcalls'; by apply app_inv_head in Hcalls').
  exists extra. repeat split; try done; try by apply Hiff.
  eapply Forall_impl; [exact Hall|]. by intros c [_ ?].
Qed.

Lemma create_resource_from_def_one_call_per_instance_witness :
  ∃ extra,
    calls Fixture.after_first_create = [] ++ extra ∧ target <$> extra = [[1]; [0]].
Proof.
  destruct (create_resource_from_def_one_call_per_instance
              (Fixture.host_of None 204) Fixture.roots_ab 2 [0] Fixture.empty_state
              (Fixture.created 2 None) Fixture.after_first_create)
    as (extra & Hcalls & _).
  - vm_compute. reflexivity.
  - exists extra. split; [exact Hcalls|].
    simpl in Hcalls. rewrite <- Hcalls. vm_compute. reflexivity.
Defined.

(** ** Dependency substitution *)

Lemma make_fields_dep_fields h roots ls t def fs o o' :
  make_fields h roots ls t def fs o = Ok o' →
  ∃ more, deps o' = deps o ++ more ∧ (field <$> more) `sublist_of` (f_name <$> fs).
Proof.
  revert o. induction fs as [|f fs IH]; intros o H; simpl in H.
  - injection H as <-. exists []. by rewrite app_nil_r.
  - destruct (make_field h roots ls t def o f) as [o1| |] eqn:E; try done.
    destruct (IH _ H) as (more & Hmore & Hsub).
    destruct (make_field_deps _ _ _ _ _ _ _ _ E) as [Hd | (src & _ & Hd)].
    + exists more. split; [congruence|]. rewrite fmap_cons. by apply sublist_cons.
    + exists ({| field := f_name f; from := src |} :: more).
      split; [rewrite Hmore, Hd; by rewrite <- app_assoc|].
      rewrite !fmap_cons. simpl. by apply sublist_skip.
Qed.

Section substitution.
Context (h : host) (roots : list resource_def) (n : nat).

Lemma resolve_deps_substitutes ds :
  ∀ inst s inst' s',
    resolve_deps (create_resource_from_def h roots n) roots ds inst s = (Ok inst', s') →
    (∀ k, k ∉ (field <$> ds) → inst' !! k = inst !! k) ∧
    (NoDup (field <$> ds) →
     ∀ x, x ∈ ds →
          ∃ dd l body, find_resource_def roots (from x) = Some dd ∧
                       lasts s' !! dd = Some l ∧ resource (last_obj l) = Some body ∧
                       inst' !! field x = Some (r_id body)).
Proof.
  induction ds as [|x rest IH]; intros inst s inst' s' Hrun; simpl in Hrun.
  - injection Hrun as <- <-. split; [done|]. intros _ y Hy. by apply elem_of_nil in Hy.
  - destruct (find_resource_def roots (from x)) as [dd|] eqn:Hfind; [|done].
    unfold bind in Hrun.
    destruct (create_resource_from_def h roots n dd s) as [[[[rsp [body|]]|]|e|] s1] eqn:Hc;
      try done.
    destruct (IH _ _ _ _ Hrun) as [Hother Hsubst].
    destruct (create_resource_from_def_settles h roots n dd s _ s1 Hc) as [(l & Hl & Hobj) _].
    destruct (resolve_deps_grows _ roots rest (create_resource_from_def_grows h roots n)
                _ _ _ _ Hrun) as [Hsub _].
    split.
    + intros k Hk. rewrite fmap_cons in Hk. apply not_elem_of_cons in Hk as [Hk1 Hk2].
      rewrite (Hother k Hk2). by apply lookup_insert_ne.
    + intros Hnd y Hy. rewrite fmap_cons in Hnd. apply NoDup_cons in Hnd as [Hx Hnd].
      apply elem_of_cons in Hy as [->|Hy]; [|by apply Hsubst].
      exists dd, l, body. split; [done|]. split; [by eapply lookup_weaken|].
      split; [by rewrite Hobj|]. rewrite (Hother _ Hx). apply lookup_insert_eq.
Qed.

(** X16.  After synthesis and resolution, every field whose [from] names
    another resource holds the id found in the response cached on the
    referenced definition, and that definition is live. *)
Theorem synthesize_and_resolve_substitutes_ids def x s inst s1 f src :
  def_at roots def = Some x → NoDup (f_name <$> fields x) →
  synthesize_and_resolve (create_resource_from_def h roots n) h roots def s = (Ok inst, s1) →
  f ∈ fields x → from_of f = Some src → src ≠ parent_ref →
  ∃ dd l body, find_resource_def roots src = Some dd ∧
               lasts s1 !! dd = Some l ∧ resource (last_obj l) = Some body ∧
               inst !! f_name f = Some (r_id body).
Proof.
  intros Hx Hnd Hphase Hf Hfrom Hsrc.
  unfold synthesize_and_resolve, bind at 1 2 3, next_tick, get_lasts, lift in Hphase.
  simpl in Hphase.
  destruct (make_test_object h roots (lasts s) (tick s) def) as [obj| |] eqn:Hobj; try done.
  assert (Hroot : parent_of def = None → ∀ g, g ∈ fields x → from_of g ≠ Some parent_ref).
  { intros Hp g Hg Hgf.
    destruct (make_test_object_root_throws h roots (lasts s) (tick s) def x g Hx Hp Hg Hgf)
      as [what Hthrow]. congruence. }
  destruct (make_test_object_around_field h roots (lasts s) (tick s) def x f Hx Hf Hnd Hroot)
    as (o & o1 & o2 & post & Ho & Hstep & _ & _ & Hdeps & _).
  rewrite Hobj in Ho. injection Ho as <-.
  unfold make_field in Hstep. rewrite Hfrom, decide_False in Hstep by done.
  injection Hstep as <-. simpl in Hdeps.
  assert (Hnd_deps : NoDup (field <$> deps obj)).
  { unfold make_test_object in Hobj. rewrite Hx in Hobj.
    destruct (make_fields_dep_fields _ _ _ _ _ _ _ _ Hobj) as (more & Hmore & Hsub).
    simpl in Hmore. rewrite Hmore. by eapply sublist_NoDup. }
  destruct (resolve_deps_substitutes _ _ _ _ _ Hphase) as [_ Hsubst].
  apply (Hsubst Hnd_deps {| field := f_name f; from := src |}).
  rewrite Hdeps. apply elem_of_app. left. apply elem_of_app. right. left.
Qed.

End substitution.

Lemma synthesize_and_resolve_substitutes_ids_witness :
  ∃ s1 inst,
    synthesize_and_resolve
      (create_resource_from_def (Fixture.host_of None 204) Fixture.roots_ab 1)
      (Fixture.host_of None 204) Fixture.roots_ab [0] Fixture.empty_state = (Ok inst, s1) ∧
    last_id <$> lasts s1 !! [1] = Some (VNumber 1) ∧
    inst !! "b_id" = Some (VNumber 1).
Proof.
  set (run := synthesize_and_resolve
                (create_resource_from_def (Fixture.host_of None 204) Fixture.roots_ab 1)
                (Fixture.host_of None 204) Fixture.roots_ab [0] Fixture.empty_state).
  destruct (synthesize_and_resolve_substitutes_ids
              (Fixture.host_of None 204) Fixture.roots_ab 1 [0] Fixture.def_a
              Fixture.empty_state
              (match run.1 with Ok i => i | _ => ∅ end) run.2
              (Fixture.ref "b_id" "bs" false) "bs")
    as (dd & l & body & Hfind & Hl & Hbody & Hinst).
  - reflexivity.
  - by_evaluation.
  - vm_compute. reflexivity.
  - by_evaluation.
  - reflexivity.
  - by_evaluation.
  - exists run.2, (match run.1 with Ok i => i | _ => ∅ end).
    split; [vm_compute; reflexivity|].
    split; vm_compute; reflexivity.
Defined.

(** ** What cleanup may and may not do *)

Lemma only_deletes_same {A} (c : M A) s :
  (∀ out s', c s = (out, s') → s' = s) → only_deletes c s.
Proof.
  intros H out s' Hrun. rewrite (H _ _ Hrun).
  repeat split; [done|..]; exists []; by rewrite app_nil_r.
Qed.

Lemma only_deletes_bind {A B} (c : M A) (k : A → M B) s :
  only_deletes c s →
  (∀ a s1, c s = (Ok a, s1) → only_deletes (k a) s1) →
  only_deletes (bind c k) s.
Proof.
  intros Hc Hk out s' Hrun. unfold bind in Hrun.
  destruct (c s) as [[a|e|] s1] eqn:E.
  - destruct (Hc _ _ E) as (Hl1 & Ht1 & (q1 & Hq1 & Hf1) & extra1 & Hc1 & Hx1).
    destruct (Hk a s1 eq_refl _ _ Hrun) as (Hl2 & Ht2 & (q2 & Hq2 & Hf2) & extra2 & Hc2 & Hx2).
    split; [by etrans|]. split; [congruence|]. split.
    + exists (q1 ++ q2). split; [by rewrite Hq2, Hq1, app_assoc|].
      apply Forall_app. split; [done|].
      eapply Forall_impl; [exact Hf2|]. intros o (l & Hl & Hid).
      exists l. split; [by eapply lookup_weaken|done].
    + exists (extra1 ++ extra2). split; [by rewrite Hc2, Hc1, app_assoc|].
      apply Forall_app. split; [done|].
      eapply Forall_impl; [exact Hx2|]. intros c0 (l & Hl & Hop).
      exists l. split; [by eapply lookup_weaken|done].
  - injection Hrun as <- <-. exact (Hc _ _ E).
  - injection Hrun as <- <-. exact (Hc _ _ E).
Qed.

Ltac unchanged :=
  apply only_deletes_same; intros ? ? Hsame;
  cbv [ret throw out_of_fuel get_last get_lasts lift] in Hsame;
  by injection Hsame as <- <-.

Lemma for_each_only_deletes {A} (body : A → M unit) l :
  (∀ x s, only_deletes (body x) s) → ∀ s, only_deletes (for_each body l) s.
Proof.
  intros Hbody. induction l as [|x rest IH]; intros s; simpl; [unchanged|].
  apply only_deletes_bind; [apply Hbody|]. intros _ s1 _. apply IH.
Qed.

(** The last steps of the branch that deletes: the call, the queueing on
    a status other than 204, the clearing of [last]. *)
Lemma delete_now_only_deletes h temp api l1 s :
  lasts s !! temp = Some l1 →
  only_deletes
    (bind (call_remote h temp api (DeleteById (last_id l1)))
       (λ res, match res with
               | None => throw (TypeError "result is undefined")
               | Some r =>
                   bind (if decide (statusCode (response_of r) = 204%Z) then ret tt
                         else push_cleanup {| o_def := temp; o_id := last_id l1 |})
                     (λ _, set_last temp None)
               end)) s.
Proof.
  intros Hl out s' Hrun. unfold bind, call_remote in Hrun.
  destruct (remote h _ api _) as [r|].
  - destruct (decide (statusCode (response_of r) = 204%Z));
      cbv [ret push_cleanup set_last] in Hrun; injection Hrun as <- <-; simpl;
      (split; [apply delete_subseteq|]); (split; [done|]); split.
    + exists []. by rewrite app_nil_r.
    + eexists. split; [done|]. repeat constructor. eauto.
    + eexists. split; [done|]. repeat constructor. eauto.
    + eexists. split; [done|]. repeat constructor. eauto.
  - cbv [throw] in Hrun. injection Hrun as <- <-. simpl.
    split; [done|]. split; [done|]. split.
    + exists []. by rewrite app_nil_r.
    + eexists. split; [done|]. repeat constructor. eauto.
Qed.

Lemma delete_field_only_deletes recurse h roots def f :
  (∀ d s, only_deletes (recurse d) s) →
  ∀ s, only_deletes (delete_field recurse h roots def f) s.
Proof.
  intros Hrec s. unfold delete_field.
  destruct (from_of f) as [src|]; [|unchanged].
  case_decide; [unchanged|].
  destruct (find_resource_def roots src) as [temp|]; [|unchanged].
  apply only_deletes_bind; [unchanged|].
  intros l s1 Hget. unfold get_last in Hget. injection Hget as <- <-.
  destruct (lasts s !! temp) as [l0|] eqn:Hl0; [|unchanged].
  destruct (negb (f_dont_delete f) && outside_parent roots def src).
  - apply only_deletes_bind; [apply Hrec|]. intros _ s1 _.
    apply only_deletes_bind; [unchanged|]. intros ls s2 Hls. unfold get_lasts in Hls.
    injection Hls as <- <-.
    apply only_deletes_bind; [unchanged|]. intros api s2 Hapi.
    unfold lift in Hapi. injection Hapi as _ <-.
    apply only_deletes_bind; [unchanged|]. intros l1 s2 Hget. unfold get_last in Hget.
    injection Hget as <- <-.
    destruct (lasts s1 !! temp) as [l1|] eqn:Hl1; [|unchanged].
    by apply delete_now_only_deletes.
  - intros out s' Hrun. cbv [push_cleanup] in Hrun. injection Hrun as <- <-. simpl.
    split; [done|]. split; [done|]. split.
    + eexists. split; [done|]. repeat constructor. eauto.
    + exists []. by rewrite app_nil_r.
Qed.

Lemma delete_dependent_resources_only_deletes h roots n :
  ∀ def s, only_deletes (delete_dependent_resources h roots n def) s.
Proof.
  induction n as [|n IH]; intros def s; simpl; [unchanged|].
  apply only_deletes_bind; [unchanged|].
  intros l s1 Hget. unfold get_last in Hget. injection Hget as <- <-.
  destruct (lasts s !! def); [|unchanged].
  destruct (def_at roots def) as [x|]; [|unchanged].
  apply for_each_only_deletes. intros f s0. by apply delete_field_only_deletes.
Qed.

(** X17.  Whatever its outcome, [delete_dependent_resources] creates
    nothing: it only removes cached instances, every remote call it makes
    is a [delete_by_id] with the id of an instance that was live when it
    began, and every pair it queues carries such an id with its
    definition. *)
Theorem delete_dependent_resources_only_removes h roots n def s :
  let s' := (delete_dependent_resources h roots n def s).2 in
  lasts s' ⊆ lasts s ∧
  (∃ q, cleanups s' = cleanups s ++ q ∧
        Forall (λ o, ∃ l, lasts s !! o_def o = Some l ∧ o_id o = last_id l) q) ∧
  ∃ extra, calls s' = calls s ++ extra ∧
           Forall (λ c, ∃ l, lasts s !! target c = Some l ∧
                             op c = DeleteById (last_id l)) extra.
Proof.
  simpl. destruct (delete_dependent_resources h roots n def s) as [out s'] eqn:E.
  destruct (delete_dependent_resources_only_deletes h roots n def s out s' E)
    as (Hl & _ & Hq & Hc).
  by repeat split.
Qed.

Lemma deletes_exactly_same {A} (c : M A) s :
  (∀ out s', c s = (out, s') → s' = s) → deletes_exactly c s.
Proof.
  intros H a s' Hrun. rewrite (H _ _ Hrun).
  exists []. rewrite app_nil_r. split; [done|]. split; [constructor|].
  intros d. split.
  - intros Hd. by apply elem_of_nil in Hd.
  - intros [[l Hl] Hnone]. congruence.
Qed.

Lemma deletes_exactly_bind {A B} (c : M A) (k : A → M B) s :
  only_deletes c s → deletes_exactly c s →
  (∀ a s1, c s = (Ok a, s1) → only_deletes (k a) s1 ∧ deletes_exactly (k a) s1) →
  deletes_exactly (bind c k) s.
Proof.
  intros Hoc Hc Hk b s' Hrun. unfold bind in Hrun.
  destruct (c s) as [[a|e|] s1] eqn:E; try done.
  destruct (Hk a s1 eq_refl) as [Hok Hek].
  destruct (Hoc _ _ E) as (Hsub1 & _).
  destruct (Hok _ _ Hrun) as (Hsub2 & _).
  destruct (Hc a s1 E) as (extra1 & Hc1 & Hnd1 & Hiff1).
  destruct (Hek b s' Hrun) as (extra2 & Hc2 & Hnd2 & Hiff2).
  exists (extra1 ++ extra2). split; [by rewrite Hc2, Hc1, app_assoc|].
  rewrite fmap_app. split.
  - apply NoDup_app. repeat split; try done.
    intros d Hd1 Hd2. apply Hiff1 in Hd1 as [_ Hn]. apply Hiff2 in Hd2 as [[l Hl] _].
    congruence.
  - intros d. rewrite elem_of_app, Hiff1, Hiff2. split.
    + intros [[Hs Hn]|[[l Hl] Hn]].
      * split; [done|]. by eapply lookup_weaken_None.
      * split; [|done]. exists l. by eapply lookup_weaken.
    + intros [Hs Hn]. destruct (lasts s1 !! d) eqn:E1; [right|left]; eauto.
Qed.

Ltac untouched :=
  apply deletes_exactly_same; intros ? ? Hsame;
  cbv [ret throw out_of_fuel get_last get_lasts lift] in Hsame;
  by injection Hsame as <- <-.

Lemma for_each_deletes_exactly {A} (body : A → M unit) l :
  (∀ x s, only_deletes (body x) s) → (∀ x s, deletes_exactly (body x) s) →
  ∀ s, deletes_exactly (for_each body l) s.
Proof.
  intros Hod Hbody. induction l as [|x rest IH]; intros s; simpl; [untouched|].
  apply deletes_exactly_bind; [apply Hod|apply Hbody|]. intros _ s1 _.
  split; [by apply for_each_only_deletes|apply IH].
Qed.

Lemma delete_now_deletes_exactly h temp api l1 s :
  lasts s !! temp = Some l1 →
  deletes_exactly
    (bind (call_remote h temp api (DeleteById (last_id l1)))
       (λ res, match res with
               | None => throw (TypeError "result is undefined")
               | Some r =>
                   bind (if decide (statusCode (response_of r) = 204%Z) then ret tt
                         else push_cleanup {| o_def := temp; o_id := last_id l1 |})
                     (λ _, set_last temp None)
               end)) s.
Proof.
  intros Hl a s' Hrun. unfold bind, call_remote in Hrun.
  destruct (remote h _ api _) as [r|]; [|done].
  assert (lasts s' = delete temp (lasts s) ∧
          calls s' = calls s ++ [{| target := temp; via := api;
                                    op := DeleteById (last_id l1) |}]) as [Hls Hcs].
  { destruct (decide (statusCode (response_of r) = 204%Z));
      cbv [ret push_cleanup set_last] in Hrun; by injection Hrun as <- <-. }
  eexists. split; [exact Hcs|]. simpl. split; [apply NoDup_singleton|].
  intros d. rewrite list_elem_of_singleton, Hls. split.
  - intros ->. split; [eauto|apply lookup_delete_eq].
  - intros [[l Hs] Hn]. destruct (decide (d = temp)) as [|Hne]; [done|].
    rewrite lookup_delete_ne in Hn by done. congruence.
Qed.

Lemma delete_field_deletes_exactly recurse h roots def f :
  (∀ d s, only_deletes (recurse d) s) → (∀ d s, deletes_exactly (recurse d) s) →
  ∀ s, deletes_exactly (delete_field recurse h roots def f) s.
Proof.
  intros Hod Hrec s. unfold delete_field.
  destruct (from_of f) as [src|]; [|untouched].
  case_decide; [untouched|].
  destruct (find_resource_def roots src) as [temp|]; [|untouched].
  apply deletes_exactly_bind; [unchanged|untouched|].
  intros l s1 Hget. unfold get_last in Hget. injection Hget as <- <-.
  destruct (lasts s !! temp) as [l0|] eqn:Hl0; [|split; [unchanged|untouched]].
  destruct (negb (f_dont_delete f) && outside_parent roots def src).
  - split.
    { apply only_deletes_bind; [apply Hod|]. intros _ s1 _.
      apply only_deletes_bind; [unchanged|]. intros ls s2 Hls. unfold get_lasts in Hls.
      injection Hls as <- <-.
      apply only_deletes_bind; [unchanged|]. intros api s2 Hapi.
      unfold lift in Hapi. injection Hapi as _ <-.
      apply only_deletes_bind; [unchanged|]. intros l1 s2 Hget. unfold get_last in Hget.
      injection Hget as <- <-.
      destruct (lasts s1 !! temp) as [l1|] eqn:Hl1; [|unchanged].
      by apply delete_now_only_deletes. }
    apply deletes_exactly_bind; [apply Hod|apply Hrec|]. intros _ s1 _.
    assert (Hrest : ∀ s0, only_deletes
       (bind (lift (get_api_for_def h roots (lasts s1) temp))
          (λ api, bind (get_last temp)
             (λ l1, match l1 with
                    | None => throw (TypeError "temp_def.last is null")
                    | Some l2 =>
                        bind (call_remote h temp api (DeleteById (last_id l2)))
                          (λ res, match res with
                                  | None => throw (TypeError "result is undefined")
                                  | Some r =>
                                      bind (if decide (statusCode (response_of r) = 204%Z)
                                            then ret tt
                                            else push_cleanup {| o_def := temp;
                                                                 o_id := last_id l2 |})
                                        (λ _, set_last temp None)
                                  end)
                    end))) s0).
    { intros s0. apply only_deletes_bind; [unchanged|]. intros api s2 Hapi.
      unfold lift in Hapi. injection Hapi as _ <-.
      apply only_deletes_bind; [unchanged|]. intros l1 s2 Hget. unfold get_last in Hget.
      injection Hget as <- <-.
      destruct (lasts s0 !! temp) as [l1|] eqn:Hl1; [|unchanged].
      by apply delete_now_only_deletes. }
    split.
    { apply only_deletes_bind; [unchanged|]. intros ls s2 Hls. unfold get_lasts in Hls.
      injection Hls as <- <-. apply Hrest. }
    apply deletes_exactly_bind; [unchanged|untouched|]. intros ls s2 Hls.
    unfold get_lasts in Hls. injection Hls as <- <-.
    split; [apply Hrest|].
    apply deletes_exactly_bind; [unchanged|untouched|]. intros api s2 Hapi.
    unfold lift in Hapi. injection Hapi as _ <-.
    split.
    { apply only_deletes_bind; [unchanged|]. intros l1 s2 Hget. unfold get_last in Hget.
      injection Hget as <- <-.
      destruct (lasts s1 !! temp) as [l1|] eqn:Hl1; [|unchanged].
      by apply delete_now_only_deletes. }
    apply deletes_exactly_bind; [unchanged|untouched|]. intros l1 s2 Hget.
    unfold get_last in Hget. injection Hget as <- <-.
    destruct (lasts s1 !! temp) as [l1|] eqn:Hl1; [|split; [unchanged|untouched]].
    split; [by apply delete_now_only_deletes|by apply delete_now_deletes_exactly].
  - split.
    { intros out s' Hrun. cbv [push_cleanup] in Hrun. injection Hrun as <- <-. simpl.
      split; [done|]. split; [done|]. split.
      + eexists. split; [done|]. repeat constructor. eauto.
      + exists []. by rewrite app_nil_r. }
    intros a s' Hrun. cbv [push_cleanup] in Hrun. injection Hrun as <- <-. simpl.
    exists []. rewrite app_nil_r. split; [done|]. split; [constructor|].
    intros d. split.
    + intros Hd. by apply elem_of_nil in Hd.
    + intros [[l Hl] Hnone]. congruence.
Qed.

Lemma delete_dependent_resources_deletes_exactly h roots n :
  ∀ def s, deletes_exactly (delete_dependent_resources h roots n def) s.
Proof.
  induction n as [|n IH]; intros def s; simpl; [untouched|].
  apply deletes_exactly_bind; [unchanged|untouched|].
  intros l s1 Hget. unfold get_last in Hget. injection Hget as <- <-.
  destruct (lasts s !! def); [|split; [unchanged|untouched]].
  destruct (def_at roots def) as [x|]; [|split; [unchanged|untouched]].
  split.
  - apply for_each_only_deletes. intros f s0.
    apply delete_field_only_deletes, delete_dependent_resources_only_deletes.
  - apply for_each_deletes_exactly; intros f s0.
    + apply delete_field_only_deletes, delete_dependent_resources_only_deletes.
    + by apply delete_field_deletes_exactly;
        [apply delete_dependent_resources_only_deletes|].
Qed.

(** X18.  When [delete_dependent_resources] completes, the delete calls
    it made are for pairwise distinct definitions, and these are exactly
    the definitions that had a cached instance before and have none
    after: no instance is deleted twice and none is dropped from the
    cache without a delete call. *)
Theorem delete_dependent_resources_one_call_per_instance h roots n def s s' :
  delete_dependent_resources h roots n def s = (Ok tt, s') →
  ∃ extra, calls s' = calls s ++ extra ∧ NoDup (target <$> extra) ∧
           ∀ d, d ∈ (target <$> extra) ↔ is_Some (lasts s !! d) ∧ lasts s' !! d = None.
Proof. apply delete_dependent_resources_deletes_exactly. Qed.

Lemma delete_dependent_resources_one_call_per_instance_witness :
  ∃ extra,
    calls (delete_dependent_resources (Fixture.host_of None 204) Fixture.roots_ab 2 [0]
             Fixture.after_first_create).2 = calls Fixture.after_first_create ++ extra ∧
    target <$> extra = [[1]].
Proof.
  destruct (delete_dependent_resources_one_call_per_instance
              (Fixture.host_of None 204) Fixture.roots_ab 2 [0] Fixture.after_first_create
              (delete_dependent_resources (Fixture.host_of None 204) Fixture.roots_ab 2 [0]
                 Fixture.after_first_create).2)
    as (extra & Hcalls & _).
  - vm_compute. reflexivity.
  - exists extra. split; [exact Hcalls|].
    apply (f_equal (drop (length (calls Fixture.after_first_create)))) in Hcalls.
    rewrite drop_app_length in Hcalls. rewrite <- Hcalls. vm_compute. reflexivity.
Defined.

(** ** cleanup_orphans: a queued definition whose client cannot be bound *)

Lemma drain_stops h roots q1 :
  ∀ n deleted s c q2 e,
    cleanups s = q1 ++ c :: q2 → (length (q1 ++ c :: q2) ≤ n)%nat →
    (∀ o, o ∈ q1 → succeeds (get_api_for_def h roots (lasts s) (o_def o))) →
    o_id c ∉ deleted ++ (o_id <$> q1) →
    get_api_for_def h roots (lasts s) (o_def c) = Throw e →
    ∃ s', drain h roots n deleted s = (Throw e, s') ∧
          cleanups s' = q2 ∧ lasts s' = lasts s ∧
          calls s' = calls s ++ (delete_call h roots (lasts s) <$> pending q1 deleted).
Proof.
  induction q1 as [|o rest IH]; intros n deleted s c q2 e Hq Hn Hbind Hfresh Hthrow.
  - destruct n as [|n]; [simpl in Hn; lia|].
    simpl. unfold bind at 1, shift_cleanup. rewrite Hq. simpl.
    rewrite app_nil_r in Hfresh. rewrite decide_False by done.
    unfold bind, get_lasts, lift. simpl. rewrite Hthrow.
    eexists. split; [done|]. simpl. by rewrite app_nil_r.
  - destruct n as [|n]; [simpl in Hn; lia|].
    simpl. unfold bind at 1, shift_cleanup. rewrite Hq. simpl.
    set (s1 := {| lasts := lasts s; calls := calls s; cleanups := rest ++ c :: q2;
                  tick := tick s |}).
    rewrite fmap_cons in Hfresh.
    destruct (decide (o_id o ∈ deleted)) as [Ho|Ho].
    + destruct (IH n deleted s1 c q2 e) as (s' & Hrun & Hrest); [done|simpl in Hn; lia|..|done|].
      * intros o' Ho'. apply Hbind. by right.
      * intros Hin. apply Hfresh. apply elem_of_app in Hin as [?|?];
          apply elem_of_app; [by left|right; by right].
      * exists s'. by rewrite Hrun.
    + assert (Hapi : succeeds (get_api_for_def h roots (lasts s) (o_def o)))
        by (apply Hbind; left).
      destruct (get_api_for_def h roots (lasts s) (o_def o)) as [api| |] eqn:Eapi; try done.
      unfold bind, lift, get_lasts, call_remote. simpl. rewrite Eapi.
      set (s2 := {| lasts := lasts s;
                    calls := calls s ++ [{| target := o_def o; via := api;
                                            op := DeleteById (o_id o) |}];
                    cleanups := rest ++ c :: q2; tick := tick s |}).
      destruct (IH n (deleted ++ [o_id o]) s2 c q2 e) as (s' & Hrun & Hq' & Hl & Hcalls);
        [done|simpl in Hn; lia|..|done|].
      * intros o' Ho'. apply Hbind. by right.
      * intros Hin. apply Hfresh. rewrite <- app_assoc in Hin.
        apply elem_of_app in Hin as [?|?]; apply elem_of_app; [by left|by right].
      * exists s'. fold s2. rewrite Hrun. repeat split; try done.
        rewrite Hcalls. simpl. unfold delete_call at 2. rewrite Eapi.
        by rewrite <- app_assoc.
Qed.

(** X19.  [cleanup_orphans] stops at the first queued entry, not
    already skipped as a duplicate, whose client cannot be bound: it
    throws the binding error, the entry has been taken off the queue
    without a delete call, the entries behind it stay queued, and only
    the entries before it were deleted. *)
Theorem cleanup_orphans_stops_at_unbindable h roots s q1 c q2 e :
  cleanups s = q1 ++ c :: q2 →
  (∀ o, o ∈ q1 → succeeds (get_api_for_def h roots (lasts s) (o_def o))) →
  o_id c ∉ (o_id <$> q1) →
  get_api_for_def h roots (lasts s) (o_def c) = Throw e →
  ∃ s', cleanup_orphans h roots s = (Throw e, s') ∧
        cleanups s' = q2 ∧ lasts s' = lasts s ∧
        calls s' = calls s ++ (delete_call h roots (lasts s) <$> pending q1 []).
Proof.
  intros Hq Hbind Hfresh Hthrow. unfold cleanup_orphans.
  apply (drain_stops h roots q1 _ [] s c q2 e); try done.
  by rewrite Hq.
Qed.

Lemma cleanup_orphans_stops_at_unbindable_witness :
  ∃ s' what,
    cleanup_orphans Shop.host Shop.roots
      {| lasts := ∅; calls := [];
         cleanups := [ {| o_def := [1]; o_id := VNumber 7 |};
                       {| o_def := [0; 0]; o_id := VNumber 8 |};
                       {| o_def := [1]; o_id := VNumber 9 |} ];
         tick := 0 |} = (Throw (TypeError what), s') ∧
    cleanups s' = [ {| o_def := [1]; o_id := VNumber 9 |} ] ∧
    calls s' = [ {| target := [1]; via := [("owners", [])]; op := DeleteById (VNumber 7) |} ].
Proof.
  destruct (cleanup_orphans_stops_at_unbindable Shop.host Shop.roots
              {| lasts := ∅; calls := [];
                 cleanups := [ {| o_def := [1]; o_id := VNumber 7 |};
                               {| o_def := [0; 0]; o_id := VNumber 8 |};
                               {| o_def := [1]; o_id := VNumber 9 |} ];
                 tick := 0 |}
              [ {| o_def := [1]; o_id := VNumber 7 |} ]
              {| o_def := [0; 0]; o_id := VNumber 8 |}
              [ {| o_def := [1]; o_id := VNumber 9 |} ]
              (TypeError "def.parent.last is null"))
    as (s' & Hrun & Hq & _ & Hcalls).
  - reflexivity.
  - apply Forall_forall. by_evaluation.
  - by_evaluation.
  - reflexivity.
  - exists s', "def.parent.last is null". repeat split; assumption.
Defined.

(** ** field_def and create_resource_defs *)

Lemma new_field_def_normal field fd :
  new_field_def field = Ok fd → normal_field fd.
Proof.
  destruct field as [|[n [| |options]] rest]; simpl; try done.
  unfold check_type.
  destruct (o_type options) as [[|a ty']|]; try done.
  case_decide as Hin; [|done]. intros [= <-].
  split; [done|]. simpl.
  split; [by destruct (o_from options) as [[|]|]
         |by destruct (o_max_length options) as [[|]|]].
Qed.

(** X20.  The constructor of [field_def] reads the first key only.  It
    yields a field exactly when the options under that key carry one of
    the nine valid types, and the field is then normal: falsy [from] and
    [max_length] have become null.  A missing type and an unknown type
    are reported by an Error; a field object with no key, or with null
    under its first key, ends in a TypeError. *)
Theorem new_field_def_outcome field :
  match new_field_def field with
  | Ok fd =>
      ∃ options rest,
        field = (f_name fd, EOptions options) :: rest ∧
        o_type options = Some (f_type fd) ∧
        normal_field fd ∧ from_of fd = f_from fd
  | Throw (Error msg) =>
      ∃ n e rest,
        field = (n, e) :: rest ∧
        (((e = EScalar ∨
           ∃ options, e = EOptions options ∧
                      (o_type options = None ∨ o_type options = Some "")) ∧
          msg = "A field must have a type.") ∨
         ∃ options ty,
           e = EOptions options ∧ o_type options = Some ty ∧
           (ty ∉ valid_types) ∧
           msg = ("Field type " +:+ ty +:+ " is not recognized."))
  | Throw (TypeError _) => field = [] ∨ ∃ n rest, field = (n, ENull) :: rest
  | OutOfFuel => False
  end.
Proof.
  destruct field as [|[n [| |options]] rest]; simpl; [by left|right; eauto| |].
  { exists n, EScalar, rest. split; [done|]. left. split; [by left|done]. }
  unfold check_type.
  destruct (o_type options) as [ty|] eqn:Hty.
  2: { exists n, (EOptions options), rest. split; [done|]. left.
       split; [right; eauto|done]. }
  destruct ty as [|a ty'].
  { exists n, (EOptions options), rest. split; [done|]. left.
    split; [right; eauto|done]. }
  case_decide as Hin.
  2: { exists n, (EOptions options), rest. split; [done|]. right.
       by exists options, (String a ty'). }
  exists options, rest. simpl. repeat split; try done.
  - by destruct (o_from options) as [[|]|].
  - by destruct (o_max_length options) as [[|]|].
  - unfold from_of. simpl. by destruct (o_from options) as [[|]|].
Qed.

Lemma set_field_names field fs :
  NoDup (f_name <$> fs) →
  NoDup (f_name <$> set_field field fs) ∧
  ∀ k, k ∈ (f_name <$> set_field field fs) ↔ k = f_name field ∨ k ∈ (f_name <$> fs).
Proof.
  induction fs as [|g rest IH]; intros Hnd; simpl.
  - split; [apply NoDup_singleton|]. intros k. rewrite list_elem_of_singleton.
    split; [by left|]. intros [?|Hk]; [done|by apply elem_of_nil in Hk].
  - apply NoDup_cons in Hnd as [Hg Hnd]. case_decide as Heq.
    + rewrite !fmap_cons. split.
      * apply NoDup_cons. by rewrite <- Heq.
      * intros k. rewrite !elem_of_cons, Heq. naive_solver.
    + destruct (IH Hnd) as [IHnd IHin]. rewrite !fmap_cons. split.
      * apply NoDup_cons. split; [|done]. rewrite IHin. intros [?|?]; done.
      * intros k. rewrite !elem_of_cons, IHin. naive_solver.
Qed.

Lemma set_field_all (P : field_def → Prop) field fs :
  P field → Forall P fs → Forall P (set_field field fs).
Proof.
  intros Hf. induction 1 as [|g rest Hg Hrest IH]; simpl; [by repeat constructor|].
  case_decide; by constructor.
Qed.

Lemma add_fields_tidy raw :
  ∀ fs fs', add_fields raw fs = Ok fs' →
            NoDup (f_name <$> fs) → Forall normal_field fs →
            NoDup (f_name <$> fs') ∧ Forall normal_field fs'.
Proof.
  induction raw as [|[| |entries] raw IH]; intros fs fs' H Hnd Hall; simpl in H; try done.
  - by injection H as <-.
  - destruct (new_field_def (object_keys fst entries)) as [fd| |] eqn:Hnew; try done.
    pose proof (new_field_def_normal _ _ Hnew) as Hnormal.
    apply (IH _ _ H); [by apply set_field_names|by apply set_field_all].
Qed.

(** *** The order of Object.keys *)

Lemma place_perm {A} i (x : A) l : place i x l ≡ₚ (i, x) :: l.
Proof.
  induction l as [|[j y] l IH]; simpl; [done|].
  destruct (i <=? j)%N; [done|]. rewrite IH. apply Permutation_swap.
Qed.

Lemma numbered_perm {A} (key : A → string) l :
  snd <$> numbered key l ≡ₚ filter (λ x, is_Some (array_index (key x))) l.
Proof.
  induction l as [|x l IH]; simpl; [done|]. rewrite filter_cons.
  destruct (array_index (key x)) as [i|] eqn:E.
  - rewrite decide_True by eauto. rewrite place_perm. simpl. by rewrite IH.
  - rewrite decide_False by (by intros [? ?]). done.
Qed.

Lemma object_keys_perm {A} (key : A → string) l : object_keys key l ≡ₚ l.
Proof.
  unfold object_keys. rewrite numbered_perm.
  rewrite (list_filter_iff (λ x, array_index (key x) = None)
             (λ x, ¬ is_Some (array_index (key x))))
    by (intros x; apply eq_None_not_Some).
  apply filter_app_complement.
Qed.

Lemma place_sorted {A} i (x : A) l :
  StronglySorted (λ a b : N * A, (a.1 ≤ b.1)%N) l →
  StronglySorted (λ a b : N * A, (a.1 ≤ b.1)%N) (place i x l).
Proof.
  induction 1 as [|[j y] l Hl IH Hall]; simpl; [by repeat constructor|].
  destruct (i <=? j)%N eqn:E.
  - apply N.leb_le in E. constructor; [by constructor|].
    constructor; [done|]. eapply Forall_impl; [exact Hall|].
    intros [k z]. simpl in *. lia.
  - apply N.leb_gt in E. constructor; [done|].
    rewrite place_perm. constructor; [simpl; lia|done].
Qed.

Lemma numbered_sorted {A} (key : A → string) l :
  StronglySorted (λ a b : N * A, (a.1 ≤ b.1)%N) (numbered key l) ∧
  Forall (λ p, array_index (key p.2) = Some p.1) (numbered key l).
Proof.
  induction l as [|x l [IHs IHi]]; simpl; [split; constructor|].
  destruct (array_index (key x)) as [i|] eqn:E; [|done].
  split; [by apply place_sorted|]. rewrite place_perm. by constructor.
Qed.

Lemma filter_sorted {A} (R : relation A) (P : A → Prop) `{∀ x, Decision (P x)} l :
  StronglySorted R l → StronglySorted R (filter P l).
Proof.
  induction 1 as [|x l Hl IH Hall]; [constructor|].
  rewrite filter_cons. case_decide; [|done].
  constructor; [done|]. apply Forall_forall. intros y Hy.
  apply list_elem_of_filter in Hy as [_ Hy].
  by apply (proj1 (Forall_forall _ _) Hall).
Qed.

Lemma fmap_sorted {A B} (R1 : relation A) (R2 : relation B) (f : A → B) l :
  (∀ x y, R1 x y → R2 (f x) (f y)) →
  StronglySorted R1 l → StronglySorted R2 (f <$> l).
Proof.
  intros Hf. induction 1 as [|x l Hl IH Hall]; [constructor|].
  rewrite fmap_cons. constructor; [done|].
  apply Forall_fmap. eapply Forall_impl; [exact Hall|]. intros y. apply Hf.
Qed.

(** Leaving properties out before or after listing the keys comes to the
    same; here for the properties a definition is built for. *)
Lemma filter_fmap_snd {A B} (P : B → Prop) `{∀ x, Decision (P x)} (l : list (A * B)) :
  filter P (snd <$> l) = snd <$> filter (λ p, P p.2) l.
Proof.
  induction l as [|p l IH]; [done|]. rewrite fmap_cons, !filter_cons. simpl.
  case_decide; by rewrite ?fmap_cons, IH.
Qed.

Lemma filter_fmap_fst {B} (P : string → Prop) `{∀ x, Decision (P x)} (l : list (string * B)) :
  filter P (fst <$> l) = fst <$> filter (λ p, P p.1) l.
Proof.
  induction l as [|p l IH]; [done|]. rewrite fmap_cons, !filter_cons. simpl.
  case_decide; by rewrite ?fmap_cons, IH.
Qed.

Lemma filter_swap {A} (P Q : A → Prop) `{∀ x, Decision (P x)} `{∀ x, Decision (Q x)}
    (l : list A) :
  filter P (filter Q l) = filter Q (filter P l).
Proof.
  induction l as [|x l IH]; [done|]. rewrite !filter_cons.
  repeat (case_decide; rewrite ?filter_cons); try done; by rewrite IH.
Qed.

(** What [Object.keys] makes of the keys that have a value: the array
    indices among them in ascending order, then the others as created. *)
Lemma object_keys_declared {B} (l : list (string * option B)) :
  ∃ indices,
    fst <$> filter (λ e, is_Some e.2) (object_keys fst l) =
      indices ++ filter (λ k, array_index k = None) (fst <$> filter (λ e, is_Some e.2) l) ∧
    indices ≡ₚ filter (λ k, is_Some (array_index k)) (fst <$> filter (λ e, is_Some e.2) l) ∧
    ascending indices.
Proof.
  set (kept := filter (λ p : N * (string * option B), is_Some p.2.2) (numbered fst l)).
  exists ((λ p : N * (string * option B), p.2.1) <$> kept).
  destruct (numbered_sorted fst l) as [Hsorted Hindex].
  split; [|split].
  - unfold object_keys. rewrite filter_app, fmap_app. f_equal.
    + rewrite filter_fmap_snd. fold kept. by rewrite <- list_fmap_compose.
    + rewrite filter_fmap_fst. f_equal. apply filter_swap.
  - rewrite filter_fmap_fst.
    assert (Hk : (λ p : N * (string * option B), p.2.1) <$> kept = fst <$> (snd <$> kept))
      by (by rewrite <- list_fmap_compose).
    rewrite Hk. apply fmap_Permutation.
    unfold kept.
    pose proof (filter_fmap_snd (λ e : string * option B, is_Some e.2) (numbered fst l))
      as Hsnd.
    simpl in Hsnd. rewrite <- Hsnd, numbered_perm.
    by rewrite (filter_swap (λ e : string * option B, is_Some e.2)
                  (λ e, is_Some (array_index e.1))).
  - exists (fst <$> kept). split.
    + rewrite <- !list_fmap_compose. apply Forall_fmap_ext.
      apply Forall_forall. intros p Hp. apply list_elem_of_filter in Hp as [_ Hp].
      exact (proj1 (Forall_forall _ _) Hindex p Hp).
    + apply (fmap_sorted (λ a b : N * (string * option B), (a.1 ≤ b.1)%N) N.le);
        [by intros ? ?|]. by apply filter_sorted.
Qed.

Lemma place_fmap {A B} (f : A → B) i x l :
  place i (f x) (prod_map id f <$> l) = prod_map id f <$> place i x l.
Proof.
  induction l as [|[j y] l IH]; [done|]. rewrite fmap_cons. cbn [place prod_map id fst snd].
  destruct (i <=? j)%N; rewrite !fmap_cons; [done|]. by rewrite IH.
Qed.

Lemma numbered_fmap {A B} (key : A → string) (key' : B → string) (f : A → B) l :
  (∀ x, key' (f x) = key x) →
  numbered key' (f <$> l) = prod_map id f <$> numbered key l.
Proof.
  intros Hkey. induction l as [|x l IH]; [done|].
  rewrite fmap_cons. cbn [numbered]. rewrite Hkey.
  destruct (array_index (key x)); [|done]. rewrite IH. apply place_fmap.
Qed.

Lemma object_keys_fmap {A B} (key : A → string) (key' : B → string) (f : A → B) l :
  (∀ x, key' (f x) = key x) →
  object_keys key' (f <$> l) = f <$> object_keys key l.
Proof.
  intros Hkey. unfold object_keys. rewrite fmap_app. f_equal.
  - rewrite (numbered_fmap key key') by done.
    rewrite <- !list_fmap_compose. by apply list_fmap_ext.
  - induction l as [|x l IH]; [done|]. rewrite fmap_cons, !filter_cons, Hkey.
    case_decide; by rewrite ?fmap_cons, IH.
Qed.

(** *** create_resource_defs *)

Lemma push_each_all (P : built_def → Prop) built :
  ∀ ds, Forall (λ p, ∀ d, p.2 = Some (Ok d) → P d) built →
        push_each built = Ok ds → Forall P ds.
Proof.
  induction built as [|[y [[d|e|]|]] rest IH]; intros ds Hall H; simpl in H; try done.
  - injection H as <-. constructor.
  - apply Forall_cons in Hall as [Hd Hrest].
    destruct (push_each rest) as [ds'| |]; try done. injection H as <-.
    constructor; [by apply Hd|by apply IH].
  - apply Forall_cons in Hall as [_ Hrest]. by apply IH.
Qed.

Lemma push_each_names built :
  ∀ ds, Forall (λ p, ∀ d, p.2 = Some (Ok d) → b_name d = p.1) built →
        push_each built = Ok ds →
        b_name <$> ds = fst <$> filter (λ p, is_Some p.2) built.
Proof.
  induction built as [|[y [[d|e|]|]] rest IH]; intros ds Hall H; simpl in H; try done.
  - by injection H as <-.
  - apply Forall_cons in Hall as [Hd Hrest].
    destruct (push_each rest) as [ds'| |]; try done. injection H as <-.
    rewrite filter_cons_True by (simpl; eauto).
    rewrite !fmap_cons. f_equal; [by apply Hd|by apply IH].
  - apply Forall_cons in Hall as [_ Hrest].
    rewrite filter_cons_False by (simpl; by intros [? ?]). by apply IH.
Qed.

Lemma all_tidy cs :
  Forall tidy cs →
  (fix all (l : list built_def) : Prop :=
     match l with [] => True | c :: rest => tidy c ∧ all rest end) cs.
Proof. induction 1; [done|]. by split. Qed.

Lemma create_resource_def_tidy h :
  ∀ v x d, create_resource_def h x v = Ok d → tidy d.
Proof.
  fix IH 1. intros [en uri pre tm vb fs children] x d H. simpl in H.
  destruct (match fs with Some raw => add_fields raw [] | None => Ok [] end)
    as [built| |] eqn:Hfs; try done.
  assert (Hfields : NoDup (f_name <$> built) ∧ Forall normal_field built).
  { destruct fs as [raw|].
    - apply (add_fields_tidy raw [] built Hfs); constructor.
    - injection Hfs as <-. split; constructor. }
  match type of H with
  | match push_each (object_keys fst (?each children)) with _ => _ end = _ =>
      assert (Hchildren : ∀ l, Forall (λ p : string * option (outcome built_def),
                                         ∀ c, p.2 = Some (Ok c) → tidy c) (each l));
      [|destruct (push_each (object_keys fst (each children))) as [cs| |] eqn:Hcs;
        try done;
        pose proof (Hchildren children) as Hall]
  end.
  { clear -IH. fix IHl 1. intros [|[y [w|]] rest].
    - constructor.
    - constructor; [|apply (IHl rest)].
      intros c Hc. simpl in Hc. injection Hc as Hc. exact (IH w y c Hc).
    - constructor; [done|apply (IHl rest)]. }
  rewrite <- (object_keys_perm fst) in Hall.
  pose proof (push_each_all tidy _ cs Hall Hcs) as Hcs'.
  injection H as <-. simpl. destruct Hfields as [Hnd Hnormal].
  split; [by rewrite (object_keys_perm f_name)|].
  split; [by rewrite (object_keys_perm f_name)|]. by apply all_tidy.
Qed.

Lemma create_resource_def_name h x v d :
  create_resource_def h x v = Ok d →
  b_name d = x ∧ b_id_name d = singular h x +:+ "_id".
Proof.
  destruct v. simpl. intros H.
  destruct (match r_fields0 with Some raw => add_fields raw [] | None => Ok [] end);
    try done.
  match type of H with
  | match ?e with _ => _ end = _ => destruct e; try done
  end.
  by injection H as <-.
Qed.

Lemma build_each_all h (P : string → built_def → Prop) raw :
  (∀ x v d, create_resource_def h x v = Ok d → P x d) →
  Forall (λ p, ∀ d, p.2 = Some (Ok d) → P p.1 d) (build_each h raw).
Proof.
  intros HP. apply Forall_forall. intros p Hp.
  apply list_elem_of_fmap in Hp as ([y [w|]] & -> & _); simpl; [|done].
  intros d [= Hd]. by eapply HP.
Qed.

Lemma create_resource_defs_tidy h raw :
  ∀ defs, create_resource_defs h raw = Ok defs → Forall tidy defs.
Proof.
  intros defs H.
  apply (push_each_all tidy (object_keys fst (build_each h raw)) defs); [|exact H].
  rewrite (object_keys_perm fst).
  apply (build_each_all h (λ _, tidy)). intros x v d. apply create_resource_def_tidy.
Qed.

Lemma tidy_children d : tidy d → Forall tidy (b_children d).
Proof.
  destruct d as [n fs en idn vb uri pre tm cs]. simpl. intros (_ & _ & Hall).
  induction cs as [|c cs IH]; [constructor|].
  destruct Hall as [Hc Hrest]. constructor; [done|by apply IH].
Qed.

Lemma tidy_def_at d :
  ∀ defs x, Forall tidy defs → def_at (core <$> defs) d = Some x →
            NoDup (f_name <$> fields x) ∧ Forall normal_field (fields x).
Proof.
  induction d as [|i q IH]; intros defs x Hall Hx; [done|].
  simpl in Hx. rewrite list_lookup_fmap in Hx.
  destruct (defs !! i) as [c|] eqn:Hc; [|done]. simpl in Hx.
  pose proof (proj1 (Forall_forall _ _) Hall c (list_elem_of_lookup_2 _ _ _ Hc)) as Htidy.
  destruct q as [|j q'].
  - injection Hx as <-. destruct c. simpl in *. by destruct Htidy as (? & ? & _).
  - apply (IH (b_children c)); [by apply tidy_children|]. by destruct c.
Qed.

(** X21.  In a tree built by [create_resource_defs], every definition,
    at any depth, has fields with pairwise distinct names, each with a
    valid type and with no empty [from] or zero [max_length]. *)
Theorem create_resource_defs_fields h raw defs d x :
  create_resource_defs h raw = Ok defs →
  def_at (core <$> defs) d = Some x →
  NoDup (f_name <$> fields x) ∧ Forall normal_field (fields x).
Proof.
  intros Hbuild Hx. eapply tidy_def_at; [|exact Hx].
  by eapply create_resource_defs_tidy.
Qed.

Lemma create_resource_defs_fields_witness :
  ∃ defs x,
    create_resource_defs Shop.host Config.resources = Ok defs ∧
    def_at (core <$> defs) [0] = Some x ∧
    f_name <$> fields x = ["title"; "pages"] ∧
    f_type <$> fields x = ["uuid"; "number"] ∧
    NoDup (f_name <$> fields x).
Proof.
  set (built := match create_resource_defs Shop.host Config.resources with
                | Ok ds => ds | _ => [] end).
  set (x := default {| name := ""; fields := []; children := [] |}
              (def_at (core <$> built) [0])).
  destruct (create_resource_defs_fields Shop.host Config.resources built [0] x)
    as [Hnd _].
  - vm_compute. reflexivity.
  - vm_compute. reflexivity.
  - exists built, x. repeat split; try exact Hnd; vm_compute; reflexivity.
Defined.

(** X22.  [create_resource_defs] builds one definition for every key of
    [resources] whose value is not null, in the order of [Object.keys]:
    first the keys that are array indices, in ascending order, then the
    other keys in the order in which they are written.  Each definition
    bears its key as [name], and its [id_name] is the singular of that
    key followed by [_id]. *)
Theorem create_resource_defs_names h raw defs :
  create_resource_defs h raw = Ok defs →
  ∃ indices,
    b_name <$> defs =
      indices ++ filter (λ k, array_index k = None)
                   (fst <$> filter (λ e, is_Some e.2) raw) ∧
    indices ≡ₚ filter (λ k, is_Some (array_index k))
                 (fst <$> filter (λ e, is_Some e.2) raw) ∧
    ascending indices ∧
    Forall (λ d, b_id_name d = singular h (b_name d) +:+ "_id") defs.
Proof.
  intros H. unfold create_resource_defs in H.
  destruct (object_keys_declared raw) as (indices & Hkeys & Hperm & Hasc).
  exists indices. split; [|split; [done|split; [done|]]].
  - rewrite <- Hkeys.
    assert (Hall : Forall (λ p : string * option (outcome built_def),
                             ∀ d, p.2 = Some (Ok d) → b_name d = p.1)
                     (object_keys fst (build_each h raw))).
    { rewrite (object_keys_perm fst).
      apply (build_each_all h (λ x d, b_name d = x)). intros x v d Hd.
      by apply create_resource_def_name in Hd as [? _]. }
    rewrite (push_each_names _ defs Hall H).
    unfold build_each.
    rewrite (object_keys_fmap fst fst) by done.
    generalize (object_keys fst raw). intros l.
    induction l as [|[y [w|]] l IH]; [done|..]; rewrite fmap_cons.
    + rewrite !filter_cons_True by (simpl; eauto). rewrite !fmap_cons.
      by rewrite IH.
    + rewrite !filter_cons_False by (simpl; by intros [? ?]). exact IH.
  - apply (push_each_all (λ d, b_id_name d = singular h (b_name d) +:+ "_id")
             (object_keys fst (build_each h raw)) defs); [|exact H].
    rewrite (object_keys_perm fst).
    apply (build_each_all h (λ x d, b_id_name d = singular h (b_name d) +:+ "_id")).
    intros x v d Hd. apply create_resource_def_name in Hd as [-> ->]. done.
Qed.

Lemma create_resource_defs_names_witness :
  ∃ defs indices,
    create_resource_defs Shop.host Config.lettered = Ok defs ∧
    b_name <$> defs = ["1"; "2"; "b"; "a"] ∧
    b_name <$> defs = indices ++ ["b"; "a"] ∧ ascending indices ∧
    Forall (λ d, b_id_name d = Fixture.drop_s (b_name d) +:+ "_id") defs.
Proof.
  set (built := match create_resource_defs Shop.host Config.lettered with
                | Ok ds => ds | _ => [] end).
  destruct (create_resource_defs_names Shop.host Config.lettered built)
    as (indices & Hnames & _ & Hasc & Hids).
  - vm_compute. reflexivity.
  - exists built, indices. split; [vm_compute; reflexivity|].
    split; [vm_compute; reflexivity|]. split; [exact Hnames|]. split; [exact Hasc|exact Hids].
Defined.

(** ** The earlier revision *)

Section earlier.
Import Earlier.










Lemma covers_more fs l l' : covers fs l → l ⊆ l' → covers fs l'.
Proof.
  intros Hc Hsub g src Hg Hfrom Hsrc. destruct (Hc g src Hg Hfrom Hsrc) as (e & He & Hf).
  exists e. split; [by apply Hsub|done].
Qed.

Lemma dependencies_first_app l1 l2 :
  dependencies_first l1 → dependencies_first l2 → dependencies_first (l1 ++ l2).
Proof.
  intros H1 H2 i e Hi. apply lookup_app_Some in Hi as [Hi|[Hge Hi]].
  - rewrite take_app_le by (apply lookup_lt_Some in Hi; lia). by apply H1.
  - rewrite take_app_ge by done.
    eapply covers_more; [by apply (H2 _ _ Hi)|]. set_solver.
Qed.

Lemma dependencies_first_snoc l e :
  dependencies_first l → covers (fields (e_target e)) l → dependencies_first (l ++ [e]).
Proof.
  intros Hl Hc i e' Hi. apply lookup_app_Some in Hi as [Hi|[Hge Hi]].
  - rewrite take_app_le by (apply lookup_lt_Some in Hi; lia). by apply Hl.
  - destruct (i - length l) as [|k] eqn:Hk; [|done]. injection Hi as <-.
    assert (i = length l) as -> by lia.
    rewrite take_app_le, take_ge by lia. done.
Qed.

Section collecting.
Context (roots : list resource_def) (proxies : string → bool)
        (recurse : resource_def → list entry → outcome (list entry)).
Hypothesis recurse_spec :
  ∀ def resources resources',
    recurse def resources = Ok resources' →
    ∃ added, resources' = added ++ resources ∧ covers (fields def) added ∧
             dependencies_first added ∧ Forall (sound_entry roots proxies) added.

Lemma collect_spec fs :
  ∀ resources resources',
    collect recurse roots proxies fs resources = Ok resources' →
    ∃ added, resources' = added ++ resources ∧ covers fs added ∧
             dependencies_first added ∧ Forall (sound_entry roots proxies) added.
Proof using recurse_spec.
  induction fs as [|f rest IH]; intros resources resources' H; simpl in H.
  - injection H as <-. exists []. repeat split; [|done|constructor].
    intros g src Hg. by apply elem_of_nil in Hg.
  - assert (Hskip : ∀ added, covers rest added → from_of f = None ∨ from_of f = Some parent_ref →
                             covers (f :: rest) added).
    { intros added Hc Hf g src Hg Hfrom Hsrc. apply elem_of_cons in Hg as [->|Hg].
      - destruct Hf as [Hf|Hf]; rewrite Hf in Hfrom; [done|]. by injection Hfrom as <-.
      - by eapply Hc. }
    destruct (from_of f) as [src|] eqn:Hfrom.
    2: { destruct (IH _ _ H) as (added & ? & ? & ? & ?). exists added.
         repeat split; try done. apply Hskip; [done|by left]. }
    case_decide as Hsrc.
    { subst src. destruct (IH _ _ H) as (added & ? & ? & ? & ?). exists added.
      repeat split; try done. apply Hskip; [done|by right]. }
    destruct (proxies src) eqn:Hproxy; [|done]. simpl in H.
    destruct (first_named src roots 0) as [[i target_def]|] eqn:Hfound; [|done].
    set (e := {| e_func := src; e_def := i; e_target := target_def; e_id_name := "id" |}) in *.
    destruct (recurse target_def (e :: resources)) as [r1| |] eqn:Hrec; try done.
    destruct (recurse_spec _ _ _ Hrec) as (a1 & -> & Hc1 & Ho1 & Hs1).
    destruct (IH _ _ H) as (a2 & -> & Hc2 & Ho2 & Hs2).
    exists (a2 ++ a1 ++ [e]). split; [by rewrite <- !app_assoc|]. repeat split.
    + intros g src' Hg Hgf Hgs. apply elem_of_cons in Hg as [->|Hg].
      * rewrite Hfrom in Hgf. injection Hgf as <-. exists e. split; [set_solver|done].
      * destruct (Hc2 g src' Hg Hgf Hgs) as (e' & ? & ?). exists e'. split; [set_solver|done].
    + apply dependencies_first_app; [done|]. by apply dependencies_first_snoc.
    + apply Forall_app. split; [done|]. apply Forall_app. split; [done|].
      by repeat constructor.
Qed.

End collecting.

Lemma get_dependent_resources_spec roots proxies n :
  ∀ def resources resources',
    get_dependent_resources roots proxies n def resources = Ok resources' →
    ∃ added, resources' = added ++ resources ∧ covers (fields def) added ∧
             dependencies_first added ∧ Forall (sound_entry roots proxies) added.
Proof.
  induction n as [|n IH]; intros def resources resources' H; [done|].
  simpl in H. by eapply collect_spec.
Qed.

(** X25.  What the earlier [get_dependent_resources] puts in front of
    [resources] provides for every field of the definition that names
    another resource, each entry standing for a root definition of that
    name with a client proxy; and every entry comes after the entries for
    the dependencies of its own definition, so that resources are created
    dependencies first. *)
Theorem earlier_get_dependent_resources_order roots proxies n def resources resources' :
  get_dependent_resources roots proxies n def resources = Ok resources' →
  ∃ added, resources' = added ++ resources ∧ covers (fields def) added ∧
           dependencies_first added ∧ Forall (sound_entry roots proxies) added.
Proof. apply get_dependent_resources_spec. Qed.

Lemma deps_get_set k d deps k' :
  deps_get k' (deps_set k d deps) = if decide (k = k') then Some d else deps_get k' deps.
Proof.
  induction deps as [|[k1 d1] rest IH]; simpl.
  - by destruct (decide (k = k')).
  - destruct (decide (k1 = k)) as [->|Hne]; simpl.
    + by destruct (decide (k = k')).
    + rewrite IH. destruct (decide (k1 = k')) as [->|]; [|done].
      by rewrite decide_False by congruence.
Qed.




End earlier.


Lemma earlier_get_dependent_resources_order_witness :
  ∃ added,
    Earlier.get_dependent_resources Chain.roots Chain.proxies 3 Chain.def_a [] =
      Ok (added ++ []) ∧
    Earlier.e_func <$> added = ["cs"; "bs"].
Proof.
  set (found := match Earlier.get_dependent_resources Chain.roots Chain.proxies 3
                        Chain.def_a [] with Ok l => l | _ => [] end).
  destruct (earlier_get_dependent_resources_order Chain.roots Chain.proxies 3 Chain.def_a
              [] found) as (added & Heq & _).
  - vm_compute. reflexivity.
  - exists added. split; [rewrite <- Heq; vm_compute; reflexivity|].
    rewrite app_nil_r in Heq. rewrite <- Heq. vm_compute. reflexivity.
Defined.


(** ** es6_mocha.js *)

Section es6_mocha.
Import Es6Mocha.

Lemma last_index_of_lt c s n : last_index_of c s = Some n → n < String.length s.
Proof.
  revert n. induction s as [|a rest IH]; intros n H; simpl in *; [done|].
  destruct (last_index_of c rest) as [m|].
  - injection H as <-. specialize (IH m eq_refl). lia.
  - case_decide; [|done]. injection H as <-. lia.
Qed.

Lemma substring_length n s :
  (n ≤ String.length s)%nat → String.length (String.substring 0 n s) = n.
Proof.
  revert n. induction s as [|a rest IH]; intros [|n] Hn; simpl in *; try done; [lia|].
  rewrite IH; [done|lia].
Qed.

Lemma prefix_substring n s : String.prefix (String.substring 0 n s) s = true.
Proof.
  revert n. induction s as [|a rest IH]; intros [|n]; simpl; try done.
  destruct (ascii_dec a a); [apply IH|done].
Qed.

Lemma prefix_trans a b c :
  String.prefix a b = true → String.prefix b c = true → String.prefix a c = true.
Proof.
  revert b c. induction a as [|x a IH]; intros [|y b] [|z c]; simpl; try done.
  destruct (ascii_dec x y) as [->|]; [|done].
  destruct (ascii_dec y z) as [->|]; [|done].
  destruct (ascii_dec z z); [apply IH|done].
Qed.

Lemma climb_outcome nd top :
  ∀ fuel current,
    String.length current < fuel → String.prefix current top = true →
    match climb nd fuel current with
    | Ok (Some p) =>
        ∃ dir, String.prefix dir top = true ∧
               exists_sync nd (join nd dir "package.json") = true ∧
               p = require nd (join nd dir "package.json")
    | Ok None => exists_sync nd (join nd current "package.json") = false
    | Throw _ => False
    | OutOfFuel => False
    end.
Proof.
  induction fuel as [|fuel IH]; intros current Hlen Hpre; [lia|].
  simpl. destruct (exists_sync nd (join nd current "package.json")) eqn:Hex; [eauto|].
  destruct (last_index_of (sep nd) current) as [k|] eqn:Hk; [|done].
  pose proof (last_index_of_lt _ _ _ Hk) as Hlt.
  specialize (IH (String.substring 0 k current)).
  rewrite substring_length in IH by lia.
  specialize (IH ltac:(lia) (prefix_trans _ _ _ (prefix_substring k current) Hpre)).
  by destruct (climb nd fuel (String.substring 0 k current)) as [[p|]|e|].
Qed.

Lemma find_parent_package_result nd filename :
  match find_parent_package nd filename with
  | Ok (Some p) =>
      ∃ dir, String.prefix dir (dirname nd filename) = true ∧
             exists_sync nd (join nd dir "package.json") = true ∧
             p = require nd (join nd dir "package.json")
  | Ok None => exists_sync nd (join nd (dirname nd filename) "package.json") = false
  | Throw _ => False
  | OutOfFuel => False
  end.
Proof.
  unfold find_parent_package.
  pose proof (climb_outcome nd (dirname nd filename)
                (S (String.length (dirname nd filename))) (dirname nd filename)
                ltac:(lia) (prefix_refl _)) as H.
  by destruct (climb nd _ (dirname nd filename)) as [[p|]|e|].
Qed.


(** X28.  The filter given to traceur never asks for a file whose name
    contains [package.json], always asks for any other file outside
    [node_modules], and asks for a file inside [node_modules] only if a
    directory above it holds a [package.json] whose [es6] is set. *)
Theorem compiled_outcome nd filename :
  match compiled nd filename with
  | Ok true =>
      index_of filename "package.json" = (-1)%Z ∧
      (index_of filename "node_modules" = (-1)%Z ∨
       ∃ dir, String.prefix dir (dirname nd filename) = true ∧
              exists_sync nd (join nd dir "package.json") = true ∧
              es6 (require nd (join nd dir "package.json")) = true)
  | Ok false =>
      index_of filename "package.json" ≠ (-1)%Z ∨
      index_of filename "node_modules" ≠ (-1)%Z
  | Throw _ => False
  | OutOfFuel => False
  end.
Proof.
  unfold compiled.
  assert (Hidx : ∀ pat, (-1 ≤ index_of filename pat)%Z).
  { intros pat. unfold index_of. destruct (String.index 0 pat filename); lia. }
  destruct (Z.ltb_spec (-1) (index_of filename "package.json")) as [Hp|Hp]; [left; lia|].
  assert (index_of filename "package.json" = (-1)%Z) as Hnone
    by (specialize (Hidx "package.json"); lia).
  destruct (Z.eqb_spec (index_of filename "node_modules") (-1)) as [Hn|Hn]; [by split; [|left]|].
  pose proof (find_parent_package_result nd filename) as H.
  destruct (find_parent_package nd filename) as [[p|]|e|]; try done; [|by right].
  destruct (es6 p) eqn:Hes; [|by right].
  split; [done|]. right. destruct H as (dir & ? & ? & ->). eauto.
Qed.

End es6_mocha.

Section earlier_turns.
Import Earlier.
Context (h : host) (t : nat) (src : string).

Lemma earlier_make_field_elsewhere o deps f o' deps' :
  Earlier.make_field h t (o, deps) f = Ok (o', deps') →
  (from_of f ≠ Some src → deps_get src deps' = deps_get src deps) ∧
  (∀ k, k ≠ f_name f → o' !! k = o !! k).
Proof.
  unfold Earlier.make_field. intros H.
  destruct (from_of f) as [src'|].
  - case_decide; [injection H as <- <-; done|].
    destruct (deps_get src' deps) as [d|]; [|done].
    destruct (items d !! index d); [|done]. injection H as <- <-. split.
    + intros Hne. rewrite deps_get_set. rewrite decide_False; [done|congruence].
    + intros k Hk. by rewrite lookup_insert_ne.
  - destruct (values_of f).
    + injection H as <- <-. split; [done|]. intros k Hk. by rewrite lookup_insert_ne.
    + destruct (synthesize h t f {| instance := o; deps := [] |}) as [o1| |] eqn:Hs; try done.
      injection H as <- <-. split; [done|]. intros k Hk.
      by apply (synthesize_other h t f _ _ k Hs).
Qed.

Lemma earlier_make_fields_elsewhere fs :
  ∀ o deps o' deps',
    Earlier.make_fields h t fs (o, deps) = Ok (o', deps') →
    ((∀ g, g ∈ fs → from_of g ≠ Some src) → deps_get src deps' = deps_get src deps) ∧
    (∀ k, k ∉ (f_name <$> fs) → o' !! k = o !! k).
Proof.
  induction fs as [|f rest IH]; intros o deps o' deps' H; cbn [Earlier.make_fields] in H.
  - by injection H as <- <-.
  - destruct (Earlier.make_field h t (o, deps) f) as [[o1 deps1]| |] eqn:E; try done.
    destruct (earlier_make_field_elsewhere _ _ _ _ _ E) as [Hd1 Ho1].
    destruct (IH _ _ _ _ H) as [Hd2 Ho2]. split.
    + intros Hno. rewrite Hd2, Hd1; [done|..].
      * apply Hno. left.
      * intros g Hg. apply Hno. by right.
    + intros k Hk. rewrite fmap_cons in Hk. apply not_elem_of_cons in Hk as [Hk1 Hk2].
      by rewrite Ho2, Ho1.
Qed.

Lemma earlier_make_fields_app fs1 fs2 acc :
  Earlier.make_fields h t (fs1 ++ fs2) acc =
  match Earlier.make_fields h t fs1 acc with
  | Ok acc1 => Earlier.make_fields h t fs2 acc1
  | Throw e => Throw e
  | OutOfFuel => OutOfFuel
  end.
Proof.
  revert acc. induction fs1 as [|f fs1 IH]; intros acc; cbn [Earlier.make_fields app]; [done|].
  destruct (Earlier.make_field h t acc f); auto.
Qed.

(** X29.  In the earlier [make_test_object], the field that names a
    resource takes the id of the item whose turn it is and moves the turn
    to the next item, back to the first after the last: successive
    objects go round the recorded instances. *)
Theorem earlier_make_test_object_takes_turns def deps l1 f l2 d it o deps' :
  fields def = l1 ++ f :: l2 →
  from_of f = Some src → src ≠ parent_ref →
  (∀ g, g ∈ l1 ++ l2 → from_of g ≠ Some src) →
  f_name f ∉ (f_name <$> l2) →
  deps_get src deps = Some d → items d !! index d = Some it →
  Earlier.make_test_object h t def deps = Ok (o, deps') →
  o !! f_name f = Some (item_id it) ∧
  deps_get src deps' =
    Some {| items := items d; index := S (index d) mod length (items d) |}.
Proof using Type.
  intros Hfields Hfrom Hsrc Hothers Hname Hget Hitem Hrun.
  unfold Earlier.make_test_object in Hrun. rewrite Hfields, earlier_make_fields_app in Hrun.
  destruct (Earlier.make_fields h t l1 (∅, deps)) as [[o1 deps1]| |] eqn:E1; try done.
  cbn [Earlier.make_fields] in Hrun.
  destruct (Earlier.make_field h t (o1, deps1) f) as [[o2 deps2]| |] eqn:E2; try done.
  destruct (earlier_make_fields_elsewhere _ _ _ _ _ E1) as [Hd1 _].
  destruct (earlier_make_fields_elsewhere _ _ _ _ _ Hrun) as [Hd2 Ho2].
  rewrite Hd2, (Ho2 _ Hname) by (intros g Hg; apply Hothers; set_solver).
  unfold Earlier.make_field in E2. rewrite Hfrom, decide_False in E2 by done.
  rewrite Hd1, Hget, Hitem in E2 by (intros g Hg; apply Hothers; set_solver).
  injection E2 as <- <-. split; [apply lookup_insert_eq|].
  rewrite deps_get_set, decide_True by done. do 2 f_equal.
  apply lookup_lt_Some in Hitem.
  destruct (Nat.leb_spec (length (items d)) (S (index d))) as [Hle|Hlt].
  - assert (S (index d) = length (items d)) as -> by lia.
    by rewrite Nat.Div0.mod_same.
  - by rewrite Nat.mod_small.
Qed.

End earlier_turns.

Lemma earlier_make_test_object_takes_turns_witness :
  ∃ o deps',
    Earlier.make_test_object Shop.host 0 Chain.def_a Chain.two_bs = Ok (o, deps') ∧
    o !! "b_id" = Some (VNumber 2) ∧
    Earlier.index <$> Earlier.deps_get "bs" deps' = Some 0.
Proof.
  set (run := Earlier.make_test_object Shop.host 0 Chain.def_a Chain.two_bs).
  set (o := match run with Ok (o, _) => o | _ => ∅ end).
  set (deps' := match run with Ok (_, d) => d | _ => [] end).
  destruct (earlier_make_test_object_takes_turns Shop.host 0 "bs" Chain.def_a Chain.two_bs
              [] (Fixture.ref "b_id" "bs" false) [Fixture.plain "flag" "bool"]
              {| Earlier.items := [ {| Earlier.item_id := VNumber 1; Earlier.item_func := "bs" |};
                                    {| Earlier.item_id := VNumber 2; Earlier.item_func := "bs" |} ];
                 Earlier.index := 1 |}
              {| Earlier.item_id := VNumber 2; Earlier.item_func := "bs" |} o deps')
    as [Ho Hdeps].
  - reflexivity.
  - reflexivity.
  - by_evaluation.
  - apply Forall_forall. by_evaluation.
  - by_evaluation.
  - reflexivity.
  - reflexivity.
  - vm_compute. reflexivity.
  - exists o, deps'. split; [vm_compute; reflexivity|]. split; [exact Ho|].
    rewrite Hdeps. reflexivity.
Defined.
